(** * The real-time synchronisation client of the dashboard

    A shallow embedding of the [ApiClient] class (event registry, request
    executor with retries, WebSocket manager) and of the data hooks built on
    it, followed by the properties the specification states about them.

    Conventions of the embedding:
    - a JavaScript [Function] is known by its identity ([cbid]); what it does
      when called is given by the environment ([listener_body]);
    - objects that the code shares by reference (the connection status
      records) live in [heap] and are named by their location;
    - everything the client does to the outside (calling a listener, the
      console, [fetch], [setTimeout]) is appended to [log], in order;
    - a function that may throw returns a [completion] beside the state;
    - numbers that the code only counts with ([attempt], [errorCount],
      milliseconds) are integers of [Z]: they stay far below 2^53, where
      JavaScript's numbers are exact; the delay [Math.pow(2, attempt) * 1000]
      is a power of two times 125 and so exact as long as it is finite, that
      is up to attempt 1014;
    - a timer waits as long as it is asked to for a delay that the host can
      hold (1 to 2^31 - 1 milliseconds); the wait for any other delay is the
      host's, given by the environment;
    - an [async] function is followed from its call to the end of its
      promise without another task of the event loop in between; what the
      awaited operations come to is given by an oracle ([exchange]), and
      time is the reading of [Date.now()], moved on by what is awaited. *)

From Stdlib Require Import ZArith Lia Ascii String.
From stdpp Require Import base option list gmap strings pretty.

Set Warnings "-register-all".
Local Open Scope string_scope.
Local Open Scope list_scope.

(** ** Values *)

(** An exception value: an [Error] instance with its message, or any other
    thrown value ([error instanceof Error] is false for those). *)
Inductive thrown : Type :=
| ThrownError (message : string)
| ThrownOther.

(** [error instanceof Error ? error.message : 'Unknown error'] *)
Definition error_message (e : thrown) : string :=
  match e with
  | ThrownError m => m
  | ThrownOther => "Unknown error"
  end.

(** JavaScript strings are sequences of 16-bit code units; the values decoded
    from JSON text keep them as numbers, [text] embeds a literal. *)
Definition units := list N.

Fixpoint text (s : string) : units :=
  match s with
  | EmptyString => []
  | String a s' => N_of_ascii a :: text s'
  end.

(** What [JSON.parse] returns. A number is kept as the exact decimal it was
    written as, [mantissa * 10 ^ exponent]. *)
Inductive json : Type :=
| JNull
| JBool (b : bool)
| JNumber (mantissa exponent : Z)
| JString (s : units)
| JArray (items : list json)
| JObject (fields : list (units * json)).

(** Objects are known by their identity: a location of the heap for a status
    record, a number for a [Function] and for a [WebSocket]. *)
Abbreviation loc := nat (only parsing).
Abbreviation cbid := nat (only parsing).
Abbreviation sock := nat (only parsing).

(** The [data: any] handed to [emit]. *)
Inductive payload : Type :=
| PStatus (l : loc)               (* the connection status object itself *)
| PTrue                           (* [true], for ws_connected / ws_disconnected *)
| PErrorEvent                     (* the Event of a socket error *)
| PData (v : option json).        (* [message.data], possibly undefined *)

Inductive completion : Type :=
| Normal
| Throws (e : thrown).

(** ** The records of the client *)

(** The interfaces [ConnectionStatus], [ApiConfig] and [ApiResponse]. The
    status object of the class always has a [latency]; [wsUrl], and the last
    three fields of a response, may be absent. *)
Record ConnectionStatus : Type := {
  connected : bool;
  lastUpdated : string;
  latency : Z;
  errorCount : Z;
}.

Record ApiConfig : Type := {
  baseUrl : string;
  wsUrl : option string;
  timeout : Z;
  retryAttempts : Z;
}.

Record ApiResponse : Type := {
  success : bool;
  data : option json;
  error : option string;
  timestamp : option string;
}.

(** [WebSocket.readyState] *)
Inductive readyState : Type := CONNECTING | OPEN | CLOSING | CLOSED.

Global Instance readyState_eq_dec : EqDecision readyState.
Proof. solve_decision. Defined.

(** ** Observable effects *)

Inductive io : Type :=
| IoCall (callback : cbid) (event : string) (arg : payload)
| IoConsole (message : string)
| IoUncaught (e : thrown)
| IoFetch (url : string)
| IoSleep (ms : Z)
| IoSetTimeout (ms : Z)
| IoNewSocket (s : sock) (url : string)
| IoClose (s : sock).

(** ** State *)

(** The private fields of [ApiClient] that change ([connectionStatus], [ws],
    [listeners]; [config] is assigned once by the constructor and is passed
    to the methods that read it), and the part of the browser they act on. *)
Record state : Type := {
  connectionStatus : loc;
  ws : option sock;
  listeners : gmap string (list cbid);
  heap : list ConnectionStatus;
  sockets : list readyState;
  timers : list Z;
  now : Z;
  log : list io;
}.

Definition set_connectionStatus (l : loc) (st : state) : state :=
  {| connectionStatus := l; ws := ws st; listeners := listeners st;
     heap := heap st; sockets := sockets st; timers := timers st;
     now := now st; log := log st |}.

Definition set_ws (w : option sock) (st : state) : state :=
  {| connectionStatus := connectionStatus st; ws := w; listeners := listeners st;
     heap := heap st; sockets := sockets st; timers := timers st;
     now := now st; log := log st |}.

Definition set_listeners (m : gmap string (list cbid)) (st : state) : state :=
  {| connectionStatus := connectionStatus st; ws := ws st; listeners := m;
     heap := heap st; sockets := sockets st; timers := timers st;
     now := now st; log := log st |}.

Definition set_heap (h : list ConnectionStatus) (st : state) : state :=
  {| connectionStatus := connectionStatus st; ws := ws st; listeners := listeners st;
     heap := h; sockets := sockets st; timers := timers st;
     now := now st; log := log st |}.

Definition set_sockets (s : list readyState) (st : state) : state :=
  {| connectionStatus := connectionStatus st; ws := ws st; listeners := listeners st;
     heap := heap st; sockets := s; timers := timers st;
     now := now st; log := log st |}.

Definition set_timers (t : list Z) (st : state) : state :=
  {| connectionStatus := connectionStatus st; ws := ws st; listeners := listeners st;
     heap := heap st; sockets := sockets st; timers := t;
     now := now st; log := log st |}.

Definition set_now (t : Z) (st : state) : state :=
  {| connectionStatus := connectionStatus st; ws := ws st; listeners := listeners st;
     heap := heap st; sockets := sockets st; timers := timers st;
     now := t; log := log st |}.

Definition effect (e : io) (st : state) : state :=
  {| connectionStatus := connectionStatus st; ws := ws st; listeners := listeners st;
     heap := heap st; sockets := sockets st; timers := timers st;
     now := now st; log := log st ++ [e] |}.

(** The initial field values of the class, in a browser at time [t0]. *)
Definition initial_status : ConnectionStatus :=
  {| connected := false; lastUpdated := ""; latency := 0; errorCount := 0 |}.

Definition new_ApiClient (t0 : Z) : state :=
  {| connectionStatus := 0; ws := None; listeners := ∅;
     heap := [initial_status]; sockets := []; timers := [];
     now := t0; log := [] |}.

(** ** JSON text *)

(** [JSON.parse] on the text of a frame, after the JSON grammar: white space
    is tab, line feed, carriage return and space; a string has no raw
    control character and only the listed escapes; a number has no leading
    zero and no bare sign or dot; nothing but white space follows the
    value. [None] stands for the [SyntaxError]. *)
Definition quote : ascii := "034"%char.
Definition backslash : ascii := "092"%char.

Definition is_ws (c : ascii) : bool :=
  let n := N_of_ascii c in
  bool_decide (n = 9 ∨ n = 10 ∨ n = 13 ∨ n = 32)%N.

Fixpoint skip_ws (s : string) : string :=
  match s with
  | String c s' => if is_ws c then skip_ws s' else s
  | EmptyString => s
  end.

Fixpoint strip_prefix (p s : string) : option string :=
  match p, s with
  | EmptyString, _ => Some s
  | String a p', String b s' => if decide (a = b) then strip_prefix p' s' else None
  | String _ _, EmptyString => None
  end.

Definition digit_of (c : ascii) : option Z :=
  let n := N_of_ascii c in
  if bool_decide (48 ≤ n ≤ 57)%N then Some (Z.of_N n - 48)%Z else None.

Definition hex_of (c : ascii) : option N :=
  let n := N_of_ascii c in
  if bool_decide (48 ≤ n ≤ 57)%N then Some (n - 48)%N
  else if bool_decide (65 ≤ n ≤ 70)%N then Some (n - 55)%N
  else if bool_decide (97 ≤ n ≤ 102)%N then Some (n - 87)%N
  else None.

(** The longest run of digits at the head of [s]: its value on top of [acc],
    how many there were, and what follows. *)
Fixpoint read_digits (s : string) (acc : Z) (count : Z) : Z * Z * string :=
  match s with
  | String c s' =>
      match digit_of c with
      | Some d => read_digits s' (acc * 10 + d)%Z (count + 1)%Z
      | None => (acc, count, s)
      end
  | EmptyString => (acc, count, s)
  end.

Definition parse_number (s : string) : option (json * string) :=
  let '(negative, s) := match s with
                        | String "-" s' => (true, s')
                        | _ => (false, s)
                        end in
  (* integer part: a single 0, or a run of digits starting with 1-9 *)
  '(int, s) ← match s with
              | String "0" s' => Some (0%Z, s')
              | String c _ =>
                  match digit_of c with
                  | Some _ => let '(v, _, r) := read_digits s 0 0 in Some (v, r)
                  | None => None
                  end
              | EmptyString => None
              end;
  (* fraction *)
  '(mant, scale, s) ← match s with
                      | String "." s' =>
                          let '(v, n, r) := read_digits s' int 0 in
                          if decide (n = 0%Z) then None else Some (v, n, r)
                      | _ => Some (int, 0%Z, s)
                      end;
  (* exponent *)
  '(exp, s) ← match s with
              | String c s' =>
                  if bool_decide (c = "e"%char ∨ c = "E"%char) then
                    let '(minus, s'') := match s' with
                                         | String "-" r => (true, r)
                                         | String "+" r => (false, r)
                                         | _ => (false, s')
                                         end in
                    let '(v, n, r) := read_digits s'' 0 0 in
                    if decide (n = 0%Z) then None
                    else Some (if minus then (- v)%Z else v, r)
                  else Some (0%Z, s)
              | EmptyString => Some (0%Z, s)
              end;
  Some (JNumber (if negative then (- mant)%Z else mant) (exp - scale)%Z, s).

(** The characters of a string after its opening quote, up to the closing
    one. *)
Fixpoint parse_string (s : string) : option (units * string) :=
  match s with
  | EmptyString => None
  | String c s' =>
      if decide (c = quote) then Some ([], s')
      else if decide (c = backslash) then
        match s' with
        | String e r =>
            if decide (e = "u"%char) then
              match r with
              | String h1 (String h2 (String h3 (String h4 r'))) =>
                  a ← hex_of h1; b ← hex_of h2; c ← hex_of h3; d ← hex_of h4;
                  '(u, rest) ← parse_string r';
                  Some ((((a * 16 + b) * 16 + c) * 16 + d)%N :: u, rest)
              | _ => None
              end
            else
              code ← (if decide (e = quote) then Some 34
                      else if decide (e = backslash) then Some 92
                      else if decide (e = "/"%char) then Some 47
                      else if decide (e = "b"%char) then Some 8
                      else if decide (e = "f"%char) then Some 12
                      else if decide (e = "n"%char) then Some 10
                      else if decide (e = "r"%char) then Some 13
                      else if decide (e = "t"%char) then Some 9
                      else None)%N;
              '(u, rest) ← parse_string r;
              Some (code :: u, rest)
        | EmptyString => None
        end
      else if bool_decide (N_of_ascii c < 32)%N then None
      else '(u, rest) ← parse_string s'; Some (N_of_ascii c :: u, rest)
  end.

Fixpoint parse_value (fuel : nat) (s : string) : option (json * string) :=
  match fuel with
  | 0 => None
  | S fuel =>
      match skip_ws s with
      | EmptyString => None
      | String c r as s =>
          if decide (c = "{"%char) then
            match skip_ws r with
            | String "}" r' => Some (JObject [], r')
            | _ => '(fields, r') ← parse_members fuel r; Some (JObject fields, r')
            end
          else if decide (c = "["%char) then
            match skip_ws r with
            | String "]" r' => Some (JArray [], r')
            | _ => '(items, r') ← parse_items fuel r; Some (JArray items, r')
            end
          else if decide (c = quote) then
            '(u, r') ← parse_string r; Some (JString u, r')
          else if decide (c = "t"%char) then
            r' ← strip_prefix "true" s; Some (JBool true, r')
          else if decide (c = "f"%char) then
            r' ← strip_prefix "false" s; Some (JBool false, r')
          else if decide (c = "n"%char) then
            r' ← strip_prefix "null" s; Some (JNull, r')
          else parse_number s
      end
  end
with parse_items (fuel : nat) (s : string) : option (list json * string) :=
  match fuel with
  | 0 => None
  | S fuel =>
      '(v, r) ← parse_value fuel s;
      match skip_ws r with
      | String "," r' => '(vs, r'') ← parse_items fuel r'; Some (v :: vs, r'')
      | String "]" r' => Some ([v], r')
      | _ => None
      end
  end
with parse_members (fuel : nat) (s : string) : option (list (units * json) * string) :=
  match fuel with
  | 0 => None
  | S fuel =>
      match skip_ws s with
      | String c r =>
          if decide (c = quote) then
            '(key, r) ← parse_string r;
            match skip_ws r with
            | String ":" r =>
                '(v, r) ← parse_value fuel r;
                match skip_ws r with
                | String "," r' => '(fs, r'') ← parse_members fuel r'; Some ((key, v) :: fs, r'')
                | String "}" r' => Some ([(key, v)], r')
                | _ => None
                end
            | _ => None
            end
          else None
      | EmptyString => None
      end
  end.

(** Every call made while parsing comes after a character was read or
    is the first call for a value, so twice the length and two is fuel enough;
    running out is not an outcome of any text. *)
Definition JSON_parse (frame : string) : option json :=
  '(v, r) ← parse_value (2 * String.length frame + 2) frame;
  match skip_ws r with
  | EmptyString => Some v
  | String _ _ => None
  end.

(** A JSON text written with ['] standing for the double quote. *)
Fixpoint dq (s : string) : string :=
  match s with
  | EmptyString => EmptyString
  | String c s' => String (if decide (c = "'"%char) then quote else c) (dq s')
  end.

(** [value.name] for a property that no prototype defines ([type], [data],
    [id], ...): reading it off [null] throws a [TypeError]; an object made by
    [JSON.parse] has it when the text had the key (the last one, if it was
    repeated); any other value gives [undefined]. *)
Definition own_property (name : units) (fields : list (units * json)) : option json :=
  snd <$> last (filter (λ f, f.1 = name) fields).

Definition property (name : string) (v : json) : thrown + option json :=
  match v with
  | JNull => inl (ThrownError ("Cannot read properties of null (reading '" +:+ name +:+ "')"))
  | JObject fields => inr (own_property (text name) fields)
  | _ => inr None
  end.

(** The string whose code units are [u], when they all fit a character. *)
Fixpoint string_of_units (u : units) : option string :=
  match u with
  | [] => Some EmptyString
  | n :: u' =>
      if bool_decide (n < 256)%N then String (ascii_of_N n) <$> string_of_units u'
      else None
  end.

(** JavaScript's truthiness of a JSON value. A number literal is falsy when
    it rounds to zero as a double, that is when its magnitude is at most
    2^-1075. *)
Definition number_nonzero (mantissa exponent : Z) : bool :=
  bool_decide (mantissa ≠ 0 ∧
               (0 ≤ exponent ∨ 10 ^ (- exponent) < Z.abs mantissa * 2 ^ 1075))%Z.

Definition truthy (v : json) : bool :=
  match v with
  | JNull => false
  | JBool b => b
  | JNumber m e => number_nonzero m e
  | JString u => bool_decide (u ≠ [])
  | JArray _ | JObject _ => true
  end.

(** Truthiness of a [string | undefined]. *)
Definition nonempty (s : option string) : bool :=
  match s with
  | Some s => bool_decide (s ≠ "")
  | None => false
  end.

(** ** The environment *)

(** What a registered callback does when it is called, as far as this
    development follows it: it may use the registry methods [on] and [off]
    of the client, and it may throw. Callbacks that call other methods of
    the client, or that write to the status record they are handed, are
    outside the environments considered; a statement that holds for every
    environment is a statement about callbacks of this kind. *)
Inductive action : Type :=
| AOn (event : string) (callback : cbid)
| AOff (event : string) (callback : cbid)
| AThrow (e : thrown).

Class Env : Type := {
  (** the body of each callback, which may depend on its argument *)
  listener_body : cbid → payload → list action;
  (** [new Date(t).toISOString()] *)
  toISOString : Z → string;
  (** whether [new WebSocket(url)] accepts the URL (it throws otherwise) *)
  url_accepted : string → bool;
  (** how long a timer of the host waits when it is asked for a delay that
      it cannot hold, that is one outside 1 .. 2^31 - 1 milliseconds
      (browsers wrap the delay to 32 bits, Node.js waits 1 ms) *)
  timer_overflow : Z → Z;
}.

Section Client.
Context `{E : Env}.

(** ** Event registry *)

(** [on(event, callback)] *)
Definition on (event : string) (callback : cbid) (st : state) : state :=
  let m := match listeners st !! event with
           | None => <[event := []]> (listeners st)
           | Some _ => listeners st
           end in
  set_listeners (alter (λ l, l ++ [callback]) event m) st.

(** [Array.prototype.indexOf]: the first position holding the same function. *)
Fixpoint indexOf (callback : cbid) (l : list cbid) : option nat :=
  match l with
  | [] => None
  | c :: l' => if decide (c = callback) then Some 0 else S <$> indexOf callback l'
  end.

(** [off(event, callback)]; [splice(index, 1)] is [delete index]. *)
Definition off (event : string) (callback : cbid) (st : state) : state :=
  match listeners st !! event with
  | Some eventListeners =>
      match indexOf callback eventListeners with
      | Some index => set_listeners (<[event := delete index eventListeners]> (listeners st)) st
      | None => st
      end
  | None => st
  end.

(** Running the body of a callback. *)
Fixpoint run_body (acts : list action) (st : state) : state * completion :=
  match acts with
  | [] => (st, Normal)
  | AOn event c :: rest => run_body rest (on event c st)
  | AOff event c :: rest => run_body rest (off event c st)
  | AThrow e :: _ => (st, Throws e)
  end.

Definition call (c : cbid) (event : string) (arg : payload) (st : state)
  : state * completion :=
  run_body (listener_body c arg) (effect (IoCall c event arg) st).

(** [eventListeners.forEach(callback => callback(data))].

    [forEach] reads the length once, then visits the indices below it in
    order, each time reading the array as it is at that moment and skipping
    an index that is no longer there. [eventListeners] is the array stored in
    the map: [on] pushes to that same array and [off] splices it in place,
    and the map never replaces the array of an event, so "the array as it is"
    is [listeners st !! event]. An exception leaves the loop at once. *)
Fixpoint forEach (remaining k : nat) (event : string) (arg : payload) (st : state)
  : state * completion :=
  match remaining with
  | 0 => (st, Normal)
  | S remaining' =>
      match listeners st !! event ≫= (λ l, l !! k) with
      | Some c =>
          match call c event arg st with
          | (st', Normal) => forEach remaining' (S k) event arg st'
          | (st', Throws e) => (st', Throws e)
          end
      | None => forEach remaining' (S k) event arg st
      end
  end.

(** [emit(event, data)] *)
Definition emit (event : string) (arg : payload) (st : state) : state * completion :=
  match listeners st !! event with
  | Some eventListeners => forEach (length eventListeners) 0 event arg st
  | None => (st, Normal)
  end.

(** ** Connection status *)

(** The record [this.connectionStatus] refers to. *)
Definition status (st : state) : ConnectionStatus :=
  default initial_status (heap st !! connectionStatus st).

(** A new object; its location is returned. *)
Definition alloc (o : ConnectionStatus) (st : state) : loc * state :=
  (length (heap st), set_heap (heap st ++ [o]) st).

(** [getConnectionStatus()]: [{ ...this.connectionStatus }] is a new object
    with the same four (primitive) field values. *)
Definition getConnectionStatus (st : state) : loc * state :=
  alloc (status st) st.

(** [this.connectionStatus.errorCount++], in place. *)
Definition increment_errorCount (st : state) : state :=
  set_heap
    (alter (λ o, {| connected := connected o; lastUpdated := lastUpdated o;
                    latency := latency o; errorCount := errorCount o + 1 |})
           (connectionStatus st) (heap st)) st.

(** [updateConnectionStatus(connected, latency?)]: the field is assigned a
    new object, and that same object is what the listeners are handed.
    [latency || old] keeps the old value for [undefined] and for [0]. *)
Definition updateConnectionStatus (connected' : bool) (latency' : option Z) (st : state)
  : state * completion :=
  let old := status st in
  let o := {| connected := connected';
              lastUpdated := toISOString (now st);
              latency := match latency' with
                         | Some l => if decide (l = 0%Z) then latency old else l
                         | None => latency old
                         end;
              errorCount := if connected' then 0%Z else errorCount old |} in
  let '(l, st) := alloc o st in
  emit "connection_status" (PStatus l) (set_connectionStatus l st).

(** ** Requests *)

(** How the transport answers one call of [fetch]: after [took] milliseconds
    the promise rejects, or resolves to a response whose [json()] is read in
    [read_took] more milliseconds, or it never settles. *)
Inductive body_result : Type :=
| BodyJson (v : json)
| BodyFails (e : thrown)
| BodyPending.

Inductive fetch_outcome : Type :=
| FetchRejects (e : thrown)
| FetchResponds (code : Z) (statusText : string) (read_took : Z) (body : body_result)
| FetchPending.

Record exchange : Type := {
  took : Z;
  outcome : fetch_outcome;
}.

(** What the promise returned by [request] comes to. *)
Inductive settled : Type :=
| Resolved (r : ApiResponse)
| Rejected (e : thrown)
| Pending.

(** [response.ok] *)
Definition ok (code : Z) : bool := bool_decide (200 ≤ code ≤ 299)%Z.

Definition advance (ms : Z) (st : state) : state := set_now (now st + ms)%Z st.

(** How long a timer set for [ms] milliseconds waits. Hosts keep the delay
    in a signed 32-bit integer: a delay from 1 to 2^31 - 1 is waited for as
    asked, and what happens to any other is the host's affair. *)
Definition timer_wait (ms : Z) : Z :=
  if decide (1 ≤ ms ≤ 2147483647)%Z then ms else timer_overflow ms.

(** [await new Promise(resolve => setTimeout(resolve, ms))]: the log keeps
    the delay that was asked for; the time that passes is the time the timer
    waits. *)
Definition sleep (ms : Z) (st : state) : state :=
  advance (timer_wait ms) (effect (IoSleep ms) st).

(** How one pass through the [try] block ends: with a [return], with an
    exception for the [catch] block, or never. *)
Inductive attempt_end : Type :=
| Returned (r : ApiResponse)
| Raised (e : thrown)
| Hung.

(** The [try] block of [request]. *)
Definition try_block (net : Z → exchange) (url : string) (startTime : Z)
    (attempt : Z) (st : state) : state * attempt_end :=
  let x := net attempt in
  let st := effect (IoFetch url) st in
  match outcome x with
  | FetchPending => (st, Hung)
  | FetchRejects e => (advance (took x) st, Raised e)
  | FetchResponds code statusText read_took body =>
      let st := advance (took x) st in
      let latency := (now st - startTime)%Z in
      match updateConnectionStatus true (Some latency) st with
      | (st, Throws e) => (st, Raised e)
      | (st, Normal) =>
          if ok code then
            match body with
            | BodyPending => (st, Hung)
            | BodyFails e => (advance read_took st, Raised e)
            | BodyJson v =>
                let st := advance read_took st in
                (st, Returned {| success := true; data := Some v; error := None;
                                 timestamp := Some (toISOString (now st)) |})
            end
          else
            (st, Raised (ThrownError ("HTTP " +:+ pretty code +:+ ": " +:+ statusText)))
      end
  end.

(** The [catch] block of [request]; [next] is the rest of the loop. *)
Definition catch_block (cfg : ApiConfig) (attempt : Z) (next : state → state * settled)
    (e : thrown) (st : state) : state * settled :=
  let st := increment_errorCount st in
  if decide (attempt = retryAttempts cfg) then
    match updateConnectionStatus false None st with
    | (st, Throws e') => (st, Rejected e')
    | (st, Normal) =>
        (st, Resolved {| success := false; data := None;
                         error := Some (error_message e);
                         timestamp := Some (toISOString (now st)) |})
    end
  else next (sleep (2 ^ attempt * 1000)%Z st).

(** The loop of [request]: [attempt] is the loop variable and [remaining]
    counts the iterations that [attempt <= retryAttempts] still allows. The
    statement after the loop is reached when there was no iteration at
    all. *)
Fixpoint attempts (cfg : ApiConfig) (net : Z → exchange) (url : string) (startTime : Z)
    (remaining : nat) (attempt : Z) (st : state) : state * settled :=
  match remaining with
  | 0 =>
      (st, Resolved {| success := false; data := None;
                       error := Some "Max retries exceeded"; timestamp := None |})
  | S remaining' =>
      match try_block net url startTime attempt st with
      | (st, Returned r) => (st, Resolved r)
      | (st, Hung) => (st, Pending)
      | (st, Raised e) =>
          catch_block cfg attempt
            (attempts cfg net url startTime remaining' (attempt + 1)%Z) e st
      end
  end.

(** [request(endpoint, options)] *)
Definition request (cfg : ApiConfig) (net : Z → exchange) (endpoint : string) (st : state)
  : state * settled :=
  let url := baseUrl cfg +:+ endpoint in
  let startTime := now st in
  attempts cfg net url startTime (Z.to_nat (retryAttempts cfg + 1)) 0%Z st.

(** [getPlantTelemetry(plantId)] *)
Definition getPlantTelemetry (cfg : ApiConfig) (net : Z → exchange) (plantId : string)
    (st : state) : state * settled :=
  request cfg net ("/api/v1/plants/" +:+ plantId +:+ "/telemetry") st.

(** ** The WebSocket *)

(** [socket.close()]: a socket that is connecting or open starts closing;
    on one that is closing or closed the call does nothing. *)
Definition close (s : sock) (st : state) : state :=
  let st := effect (IoClose s) st in
  match sockets st !! s with
  | Some CONNECTING | Some OPEN => set_sockets (<[s := CLOSING]> (sockets st)) st
  | _ => st
  end.

(** [setTimeout(() => this.connectWebSocket(), ms)]: the only timers the
    class leaves pending are these; [timers] holds the times they are due. *)
Definition setTimeout (ms : Z) (st : state) : state :=
  effect (IoSetTimeout ms) (set_timers (timers st ++ [(now st + timer_wait ms)%Z]) st).

(** [connectWebSocket()]. [this.ws?.readyState === WebSocket.OPEN] is false
    when [ws] is null. When the constructor throws, the assignment to
    [this.ws] does not happen and the [catch] logs. *)
Definition connectWebSocket (cfg : ApiConfig) (st : state) : state :=
  if negb (nonempty (wsUrl cfg))
     || bool_decide ((ws st ≫= λ s, sockets st !! s) = Some OPEN)
  then st
  else
    let url := default "" (wsUrl cfg) in
    if url_accepted url then
      let s := length (sockets st) in
      effect (IoNewSocket s url)
              (set_ws (Some s) (set_sockets (sockets st ++ [CONNECTING]) st))
    else effect (IoConsole "WebSocket connection failed:") st.

(** [disconnectWebSocket()] *)
Definition disconnectWebSocket (st : state) : state :=
  match ws st with
  | Some s => set_ws None (close s st)
  | None => st
  end.

(** The four handlers that [connectWebSocket] installs on every socket it
    creates. They close over [this], not over the socket. *)
Definition ws_onopen (st : state) : state * completion :=
  emit "ws_connected" PTrue (effect (IoConsole "WebSocket connected") st).

(** [this.emit(message.type, message.data)]: the registry is keyed by the
    strings given to [on]; a [type] that is not such a string has no entry. *)
Definition emit_message (message : json) (st : state) : state * completion :=
  match property "type" message with
  | inl e => (st, Throws e)
  | inr type =>
      match property "data" message with
      | inl e => (st, Throws e)
      | inr data =>
          match type with
          | Some (JString u) =>
              match string_of_units u with
              | Some event => emit event (PData data) st
              | None => (st, Normal)
              end
          | _ => (st, Normal)
          end
      end
  end.

Definition ws_onmessage (frame : string) (st : state) : state :=
  match JSON_parse frame with
  | None => effect (IoConsole "WebSocket message parse error:") st
  | Some message =>
      match emit_message message st with
      | (st, Normal) => st
      | (st, Throws _) => effect (IoConsole "WebSocket message parse error:") st
      end
  end.

Definition ws_onclose (st : state) : state * completion :=
  match emit "ws_disconnected" PTrue (effect (IoConsole "WebSocket disconnected") st) with
  | (st, Normal) => (setTimeout 5000 st, Normal)
  | (st, Throws e) => (st, Throws e)
  end.

Definition ws_onerror (st : state) : state * completion :=
  emit "ws_error" PErrorEvent (effect (IoConsole "WebSocket error:") st).

(** ** The event loop *)

(** What can happen to the client from outside: the application calls
    [connectWebSocket] or [disconnectWebSocket], the browser reports on a
    socket, time passes. *)
Inductive event : Type :=
| Connect
| Disconnect
| SocketOpens (s : sock)
| SocketMessage (s : sock) (frame : string)
| SocketErrors (s : sock)
| SocketCloses (s : sock)
| Elapse (ms : Z).

(** An exception that leaves a handler is reported by the browser and goes
    no further. *)
Definition uncaught (r : state * completion) : state :=
  match r with
  | (st, Normal) => st
  | (st, Throws e) => effect (IoUncaught e) st
  end.

Definition set_readyState (s : sock) (r : readyState) (st : state) : state :=
  set_sockets (<[s := r]> (sockets st)) st.

(** The timers due by now run, oldest first; each calls [connectWebSocket]. *)
Definition run_timers (cfg : ApiConfig) (st : state) : state :=
  let due := filter (λ t, (t ≤ now st)%Z) (timers st) in
  let later := filter (λ t, ¬ (t ≤ now st)%Z) (timers st) in
  foldl (λ st _, connectWebSocket cfg st) (set_timers later st) due.

(** One turn of the event loop. The browser opens only a connecting socket,
    delivers messages only on an open one, and closes a socket once. *)
Definition step (cfg : ApiConfig) (st : state) (ev : event) : state :=
  match ev with
  | Connect => connectWebSocket cfg st
  | Disconnect => disconnectWebSocket st
  | SocketOpens s =>
      match sockets st !! s with
      | Some CONNECTING => uncaught (ws_onopen (set_readyState s OPEN st))
      | _ => st
      end
  | SocketMessage s frame =>
      match sockets st !! s with
      | Some OPEN => ws_onmessage frame st
      | _ => st
      end
  | SocketErrors s =>
      match sockets st !! s with
      | Some CONNECTING | Some OPEN | Some CLOSING => uncaught (ws_onerror st)
      | _ => st
      end
  | SocketCloses s =>
      match sockets st !! s with
      | Some CONNECTING | Some OPEN | Some CLOSING =>
          uncaught (ws_onclose (set_readyState s CLOSED st))
      | _ => st
      end
  | Elapse ms => run_timers cfg (advance ms st)
  end.

Definition run (cfg : ApiConfig) (evs : list event) (st : state) : state :=
  foldl (step cfg) st evs.

(** ** The telemetry hook *)

(** The four state cells of [usePlantTelemetry]: [data], [loading], [error],
    [lastUpdated]. *)
Record telemetry : Type := {
  h_data : option json;
  h_loading : bool;
  h_error : option string;
  h_lastUpdated : option string;
}.

Definition setData (v : option json) (h : telemetry) : telemetry :=
  {| h_data := v; h_loading := h_loading h; h_error := h_error h;
     h_lastUpdated := h_lastUpdated h |}.
Definition setLoading (b : bool) (h : telemetry) : telemetry :=
  {| h_data := h_data h; h_loading := b; h_error := h_error h;
     h_lastUpdated := h_lastUpdated h |}.
Definition setError (e : option string) (h : telemetry) : telemetry :=
  {| h_data := h_data h; h_loading := h_loading h; h_error := e;
     h_lastUpdated := h_lastUpdated h |}.
Definition setLastUpdated (t : option string) (h : telemetry) : telemetry :=
  {| h_data := h_data h; h_loading := h_loading h; h_error := h_error h;
     h_lastUpdated := t |}.

(** [a || b] on strings that may be undefined. *)
Definition or_else (a : option string) (b : string) : string :=
  if nonempty a then default b a else b.

(** [fetchData()] from the moment the awaited promise settles: the [try]
    body after the [await], the [catch], the [finally]. A promise that never
    settles leaves the cells as the first two setters put them. *)
Definition fetchData_settled (r : settled) (clock : Z) (h : telemetry) : telemetry :=
  match r with
  | Pending => h
  | Resolved response =>
      setLoading false
        (if success response && from_option truthy false (data response) then
           setLastUpdated (Some (or_else (timestamp response) (toISOString clock)))
                          (setData (data response) h)
         else setError (Some (or_else (error response) "Failed to fetch plant data")) h)
  | Rejected err => setLoading false (setError (Some (error_message err)) h)
  end.

(** [fetchData()] of [usePlantTelemetry(plantId, enabled)] *)
Definition fetchData (cfg : ApiConfig) (net : Z → exchange)
    (plantId : option string) (enabled : bool) (st : state) (h : telemetry)
  : state * telemetry :=
  if negb (nonempty plantId) || negb enabled then (st, h)
  else
    let h := setError None (setLoading true h) in
    let '(st, r) := getPlantTelemetry cfg net (default "" plantId) st in
    (st, fetchData_settled r (now st) h).

End Client.

(** ** Reading a log *)

(** The callbacks invoked, in order. *)
Definition calls (l : list io) : list (cbid * string * payload) :=
  omap (λ e, match e with IoCall c ev a => Some (c, ev, a) | _ => None end) l.

(** The calls of [fetch] and the waits between them, in order. *)
Definition transport (l : list io) : list io :=
  omap (λ e, match e with IoFetch _ | IoSleep _ => Some e | _ => None end) l.

(** The delays waited, in order. *)
Definition delays (l : list io) : list Z :=
  omap (λ e, match e with IoSleep ms => Some ms | _ => None end) l.

(** The number of calls of [fetch]. *)
Definition fetches (l : list io) : nat :=
  length (omap (λ e, match e with IoFetch u => Some u | _ => None end) l).

(** ** Properties of callbacks *)

(** The exception a body ends with, if any. *)
Fixpoint first_throw (acts : list action) : option thrown :=
  match acts with
  | [] => None
  | AThrow e :: _ => Some e
  | _ :: rest => first_throw rest
  end.

(** A body that neither throws nor unregisters a listener of [event]. *)
Definition tame (event : string) (acts : list action) : bool :=
  bool_decide (first_throw acts = None)
  && forallb (λ a, match a with
                   | AOff ev _ => bool_decide (ev ≠ event)
                   | _ => true
                   end) acts.

(** The callbacks that a body registers for [event], in order. *)
Definition registered (event : string) (acts : list action) : list cbid :=
  omap (λ a, match a with
             | AOn ev c => if decide (ev = event) then Some c else None
             | _ => None
             end) acts.

(** ** Concrete environments, for examples *)

(** A browser's timer for a delay outside 1 .. 2^31 - 1: the delay is
    wrapped to a signed 32-bit integer, and a negative one counts as 0. *)
Definition wrapped_delay (ms : Z) : Z :=
  Z.max 0 ((ms + 2147483648) `mod` 4294967296 - 2147483648).

(** Callbacks behaving as [body] says whatever their argument, in a browser
    that accepts every URL. *)
Definition example_env (body : cbid → list action) : Env :=
  {| listener_body := λ c _, body c;
     toISOString := λ t, "T" +:+ pretty t;
     url_accepted := λ _, true;
     timer_overflow := wrapped_delay |}.

Definition defaultConfig : ApiConfig :=
  {| baseUrl := "http://localhost:8000";
     wsUrl := Some "ws://localhost:8000/ws";
     timeout := 10000;
     retryAttempts := 3 |}.

(** ** The statements of the specification *)

(** The fields outside the registry and the log. *)
Definition rest_of (st : state) : loc * option sock * list ConnectionStatus
                                  * list readyState * list Z * Z :=
  (connectionStatus st, ws st, heap st, sockets st, timers st, now st).

(** One [emit] calls exactly the callbacks that were registered for the
    event when it started, each once, in registration order. *)
Definition delivers_snapshot `{E : Env} (event : string) (arg : payload) (st : state) : Prop :=
  calls (log (emit event arg st).1) =
    calls (log st) ++ ((λ c, (c, event, arg)) <$> default [] (listeners st !! event)).

(** One [emit] returns normally and has called every callback registered for
    the event, whatever some of them threw. *)
Definition isolates_failures `{E : Env} (event : string) (arg : payload) (st : state) : Prop :=
  (emit event arg st).2 = Normal ∧
  ∀ c, c ∈ default [] (listeners st !! event) →
       (c, event, arg) ∈ calls (log (emit event arg st).1).


(** The error with which an attempt fails on account of the endpoint: the
    rejection of [fetch], the [Error] made for a status outside 200-299, or
    the failure to decode the body. *)
Definition failure (x : exchange) : option thrown :=
  match outcome x with
  | FetchRejects e => Some e
  | FetchResponds code statusText _ body =>
      if ok code then
        match body with
        | BodyFails e => Some e
        | _ => None
        end
      else Some (ThrownError ("HTTP " +:+ pretty code +:+ ": " +:+ statusText))
  | FetchPending => None
  end.

(** No callback ever throws. *)
Definition quiet `{E : Env} : Prop :=
  ∀ c arg, first_throw (listener_body c arg) = None.

(** The internal status reference points into the heap. *)
Definition well_formed (st : state) : Prop :=
  (connectionStatus st < length (heap st))%nat.

(** What [errorCount] is after a failed attempt that found it at [n]. *)
Definition errorCount_after (x : exchange) (n : Z) : Z :=
  match outcome x with
  | FetchRejects _ => (n + 1)%Z
  | FetchResponds _ _ _ _ => 1%Z
  | FetchPending => n
  end.

(** [errorCount] grows by one with every failed attempt of a request whose
    attempts all fail. *)
Definition counts_every_failure `{E : Env} (cfg : ApiConfig) (net : Z → exchange)
    (endpoint : string) (st : state) : Prop :=
  (∀ i, (0 ≤ i ≤ retryAttempts cfg)%Z → is_Some (failure (net i))) →
  errorCount (status (request cfg net endpoint st).1)
  = (errorCount (status st) + (retryAttempts cfg + 1))%Z.

(** A request whose attempts all fail returns a failure result that carries
    the message of the last error. *)
Definition returns_last_error `{E : Env} (cfg : ApiConfig) (net : Z → exchange)
    (endpoint : string) (st : state) : Prop :=
  (∀ i, (0 ≤ i ≤ retryAttempts cfg)%Z → is_Some (failure (net i))) →
  ∃ e r, failure (net (retryAttempts cfg)) = Some e ∧
         (request cfg net endpoint st).2 = Resolved r ∧
         success r = false ∧ error r = Some (error_message e).

(** An attempt that takes longer than [timeout] does not produce the result
    of the request: a request that resolves successfully after a first
    attempt over the bound has made a further attempt. *)
Definition attempt_bounded_by_timeout `{E : Env} (cfg : ApiConfig) (net : Z → exchange)
    (endpoint : string) (st : state) : Prop :=
  (timeout cfg < took (net 0%Z))%Z →
  ∀ r, (request cfg net endpoint st).2 = Resolved r → success r = true →
       (2 ≤ fetches (log (request cfg net endpoint st).1))%nat.

(** [cfg] with another [timeout]. *)
Definition with_timeout (t : Z) (cfg : ApiConfig) : ApiConfig :=
  {| baseUrl := baseUrl cfg; wsUrl := wsUrl cfg; timeout := t;
     retryAttempts := retryAttempts cfg |}.


(** [connectWebSocket] changes nothing when the current socket is connecting
    or open. *)
Definition connect_is_idempotent `{E : Env} (cfg : ApiConfig) (st : state) : Prop :=
  (∃ s, ws st = Some s ∧
        (sockets st !! s = Some CONNECTING ∨ sockets st !! s = Some OPEN)) →
  connectWebSocket cfg st = st.

(** The sockets that are not closed. *)
Definition live_sockets (st : state) : nat :=
  length (filter (λ r, r ≠ CLOSED) (sockets st)).

(** What the holder of a status record can do to it: assign a field. *)
Inductive field_write : Type :=
| SetConnected (b : bool)
| SetLastUpdated (t : string)
| SetLatency (ms : Z)
| SetErrorCount (n : Z).

Definition write_field (w : field_write) (o : ConnectionStatus) : ConnectionStatus :=
  match w with
  | SetConnected b =>
      {| connected := b; lastUpdated := lastUpdated o; latency := latency o;
         errorCount := errorCount o |}
  | SetLastUpdated t =>
      {| connected := connected o; lastUpdated := t; latency := latency o;
         errorCount := errorCount o |}
  | SetLatency ms =>
      {| connected := connected o; lastUpdated := lastUpdated o; latency := ms;
         errorCount := errorCount o |}
  | SetErrorCount n =>
      {| connected := connected o; lastUpdated := lastUpdated o; latency := latency o;
         errorCount := n |}
  end.

(** The object at [l] is changed in place by [f]. *)
Definition touch (l : loc) (f : ConnectionStatus → ConnectionStatus) (st : state) : state :=
  set_heap (alter f l (heap st)) st.

(** A caller assigns to fields of the object at [l], one after the other. *)
Definition mutate (l : loc) (writes : list field_write) (st : state) : state :=
  foldl (λ st w, touch l (write_field w) st) st writes.

(** What can be done with the client: its public methods, and the turns of
    the event loop. *)
Inductive operation : Type :=
| OpOn (event : string) (callback : cbid)
| OpOff (event : string) (callback : cbid)
| OpRequest (net : Z → exchange) (endpoint : string)
| OpGetConnectionStatus
| OpEvent (ev : event).

Definition perform `{E : Env} (cfg : ApiConfig) (st : state) (op : operation) : state :=
  match op with
  | OpOn event c => on event c st
  | OpOff event c => off event c st
  | OpRequest net endpoint => (request cfg net endpoint st).1
  | OpGetConnectionStatus => (getConnectionStatus st).2
  | OpEvent ev => step cfg st ev
  end.

(** What happens after a caller has been handed the record at [r]: the
    caller assigns to one of its fields, or something is done with the
    client. *)
Inductive move : Type :=
| Assign (w : field_write)
| Perform (op : operation).

Definition play `{E : Env} (cfg : ApiConfig) (r : loc) (st : state) (moves : list move)
  : state :=
  foldl (λ st m, match m with
                 | Assign w => touch r (write_field w) st
                 | Perform op => perform cfg st op
                 end) st moves.

(** The operations among the moves. *)
Definition operations (moves : list move) : list operation :=
  omap (λ m, match m with Perform op => Some op | Assign _ => None end) moves.

(** The object at [r] is not the one the client holds. *)
Definition apart (r : loc) (st : state) : Prop :=
  (r < length (heap st))%nat ∧ connectionStatus st ≠ r.

(** [g] on the state of a result. *)
Definition on_state {A} (g : state → state) (p : state * A) : state * A := (g p.1, p.2).

(** ** Examples *)

(** Listeners that do nothing. *)
Definition silent : Env := example_env (λ _, []).

(** An endpoint that is unreachable, one that answers 500 every time, and
    one that answers 200 after a minute. *)
Definition unreachable (i : Z) : exchange :=
  {| took := 30; outcome := FetchRejects (ThrownError "Failed to fetch") |}.

Definition failing (i : Z) : exchange :=
  {| took := 20;
     outcome := FetchResponds 500 "Internal Server Error" 1 (BodyJson JNull) |}.

Definition slow (i : Z) : exchange :=
  {| took := 60000; outcome := FetchResponds 200 "OK" 5 (BodyJson (JArray [])) |}.

(** Three listeners of [telemetry], the first of which unregisters itself
    when called. *)
Definition once_only (c : cbid) : list action :=
  if decide (c = 0) then [AOff "telemetry" 0] else [].

(** Two listeners, the first of which throws. *)
Definition faulty (c : cbid) : list action :=
  if decide (c = 0) then [AThrow (ThrownError "render failed")] else [].

Definition three_listeners `{E : Env} : state :=
  on "telemetry" 2 (on "telemetry" 1 (on "telemetry" 0 (new_ApiClient 0))).

(** A client whose socket is open, with one subscriber of [telemetry]. *)
Definition streaming `{E : Env} : state :=
  run defaultConfig [Connect; SocketOpens 0] (on "telemetry" 5 (new_ApiClient 0)).

(** A telemetry envelope as the stream carries it. *)
Definition envelope : string :=
  dq "{'type':'telemetry','data':{'id':'plant-1','power':4.2},'timestamp':'2024-01-01T00:00:00Z'}".

(** A hook that holds data from an earlier fetch. *)
Definition loaded : telemetry :=
  {| h_data := Some (JObject [(text "id", JString (text "plant-1"))]);
     h_loading := false; h_error := None;
     h_lastUpdated := Some "2024-01-01T00:00:00Z" |}.

(** ** Further vocabulary *)

(** The time one attempt takes: until [fetch] settles, and for a response
    with a status in 200-299 until its body has been read. *)
Definition spent (x : exchange) : Z :=
  match outcome x with
  | FetchRejects _ => took x
  | FetchResponds code _ read_took body =>
      if ok code then
        match body with
        | BodyPending => took x
        | _ => (took x + read_took)%Z
        end
      else took x
  | FetchPending => 0%Z
  end.

(** The time that the first [k] attempts and the waits after them take,
    each wait lasting as long as was asked for. *)
Definition waited (net : Z → exchange) (k : Z) : Z :=
  foldr (λ i acc, (spent (net i) + 1000 * 2 ^ i + acc)%Z) 0%Z (seqZ 0 k).

(** The transport comes to an end for this exchange. *)
Definition settles (x : exchange) : Prop :=
  match outcome x with
  | FetchRejects _ => True
  | FetchResponds _ _ _ body => body ≠ BodyPending
  | FetchPending => False
  end.

(** The [type] of a parsed frame names no event anyone has registered for. *)
Definition names_no_event (st : state) (message : json) : Prop :=
  match property "type" message with
  | inr (Some (JString u)) =>
      default [] (string_of_units u ≫= λ event, listeners st !! event) = []
  | _ => True
  end.

(** An endpoint that answers 500 twice and then 200 with a telemetry
    record. *)
Definition flaky (i : Z) : exchange :=
  if decide (i < 2)%Z then failing i
  else {| took := 40;
          outcome := FetchResponds 200 "OK" 3
                       (BodyJson (JObject [(text "id", JString (text "plant-1"))])) |}.

(** A client with one listener of the status events. *)
Definition watched : state := on "connection_status" 0 (new_ApiClient 0).

(** An attempt that never ends: [fetch] never settles, or the response has
    a status in 200-299 and its body never arrives. *)
Definition hangs (x : exchange) : Prop :=
  match outcome x with
  | FetchPending => True
  | FetchResponds code _ _ BodyPending => ok code = true
  | _ => False
  end.

(** ** The health and alerts hooks *)

Section Hooks.
Context `{E : Env}.

(** [getSystemHealth()] *)
Definition getSystemHealth (cfg : ApiConfig) (net : Z → exchange) (st : state)
  : state * settled :=
  request cfg net "/api/v1/system/health" st.

(** [getAlerts(acknowledged = false)] *)
Definition getAlerts (cfg : ApiConfig) (net : Z → exchange) (acknowledged : option bool)
    (st : state) : state * settled :=
  request cfg net
    ("/api/v1/alerts?acknowledged=" +:+ (if default false acknowledged then "true" else "false"))
    st.

(** The state cells of [useSystemHealth]: [data], [loading], [error]. *)
Record health : Type := {
  s_data : option json;
  s_loading : bool;
  s_error : option string;
}.

(** [fetchHealth()] from the moment the awaited promise settles. *)
Definition fetchHealth_settled (r : settled) (h : health) : health :=
  match r with
  | Pending => h
  | Resolved response =>
      let h :=
        if success response && from_option truthy false (data response) then
          {| s_data := data response; s_loading := s_loading h; s_error := s_error h |}
        else
          {| s_data := s_data h; s_loading := s_loading h;
             s_error := Some (or_else (error response) "Failed to fetch system health") |} in
      {| s_data := s_data h; s_loading := false; s_error := s_error h |}
  | Rejected err =>
      {| s_data := s_data h; s_loading := false; s_error := Some (error_message err) |}
  end.

(** [fetchHealth()] of [useSystemHealth]: unlike [fetchData] it does not set
    [loading] before the request. *)
Definition fetchHealth (cfg : ApiConfig) (net : Z → exchange) (st : state) (h : health)
  : state * health :=
  let h := {| s_data := s_data h; s_loading := s_loading h; s_error := None |} in
  let '(st, r) := getSystemHealth cfg net st in
  (st, fetchHealth_settled r h).

(** The state cells of [useAlerts]: [alerts], [loading], [error]. The list
    is whatever truthy value a response carried. *)
Record alerts : Type := {
  a_alerts : json;
  a_loading : bool;
  a_error : option string;
}.

(** [fetchAlerts()] from the moment the awaited promise settles. *)
Definition fetchAlerts_settled (r : settled) (h : alerts) : alerts :=
  match r with
  | Pending => h
  | Resolved response =>
      let h :=
        match data response with
        | Some v =>
            if success response && truthy v then
              {| a_alerts := v; a_loading := a_loading h; a_error := a_error h |}
            else
              {| a_alerts := a_alerts h; a_loading := a_loading h;
                 a_error := Some (or_else (error response) "Failed to fetch alerts") |}
        | None =>
            {| a_alerts := a_alerts h; a_loading := a_loading h;
               a_error := Some (or_else (error response) "Failed to fetch alerts") |}
        end in
      {| a_alerts := a_alerts h; a_loading := false; a_error := a_error h |}
  | Rejected err =>
      {| a_alerts := a_alerts h; a_loading := false; a_error := Some (error_message err) |}
  end.

(** [fetchAlerts()] of [useAlerts]: it asks for the alerts not yet
    acknowledged. *)
Definition fetchAlerts (cfg : ApiConfig) (net : Z → exchange) (st : state) (h : alerts)
  : state * alerts :=
  let h := {| a_alerts := a_alerts h; a_loading := a_loading h; a_error := None |} in
  let '(st, r) := getAlerts cfg net None st in
  (st, fetchAlerts_settled r h).

End Hooks.

(** An endpoint that never answers, and one that answers 200 with an empty
    list. *)
Definition stalled (i : Z) : exchange := {| took := 0; outcome := FetchPending |}.

Definition no_alerts (i : Z) : exchange :=
  {| took := 40; outcome := FetchResponds 200 "OK" 3 (BodyJson (JArray [])) |}.

(** The cells of the health and alerts hooks when they mount. *)
Definition mounted_health : health :=
  {| s_data := None; s_loading := true; s_error := None |}.

Definition mounted_alerts : alerts :=
  {| a_alerts := JArray []; a_loading := true; a_error := None |}.

(** What [handleTelemetryUpdate] of the telemetry hook does as far as the
    client can tell: [update.id] throws a [TypeError] when the update is
    [undefined] or [null], and is a plain read otherwise. *)
Definition handleTelemetryUpdate_body (arg : payload) : list action :=
  match arg with
  | PData None =>
      [AThrow (ThrownError "Cannot read properties of undefined (reading 'id')")]
  | PData (Some JNull) =>
      [AThrow (ThrownError "Cannot read properties of null (reading 'id')")]
  | _ => []
  end.

(** The hooks' handlers as callbacks: callback 5 is a [handleTelemetryUpdate],
    the others do nothing. *)
Definition hooks_env : Env :=
  {| listener_body := λ c arg, if decide (c = 5) then handleTelemetryUpdate_body arg else [];
     toISOString := λ t, "T" +:+ pretty t;
     url_accepted := λ _, true;
     timer_overflow := wrapped_delay |}.

(** ** Proof steps *)

(** Case analysis on how the [emit] in the goal ends, with what the lemma
    [fact] says about it. *)
Ltac case_emit fact :=
  match goal with
  | |- context [emit ?ev ?a ?s0] =>
      let H := fresh in
      pose proof (fact ev a s0) as H;
      destruct (emit ev a s0) as [? []]; simpl in *
  end.

(** * Properties *)

Section Registry.
Context `{E : Env}.

Lemma on_lookup event c st event' :
  listeners (on event c st) !! event' =
    if decide (event = event') then Some (default [] (listeners st !! event) ++ [c])
    else listeners st !! event'.
Proof.
  unfold on; simpl. destruct (decide (event = event')) as [<-|Hne].
  - rewrite lookup_alter_eq.
    destruct (listeners st !! event) as [l|] eqn:Hl; simpl.
    + by rewrite Hl.
    + by rewrite lookup_insert_eq.
  - rewrite lookup_alter_ne by done.
    destruct (listeners st !! event); [done|]. by rewrite lookup_insert_ne.
Qed.

Lemma off_lookup_ne event c st event' :
  event ≠ event' → listeners (off event c st) !! event' = listeners st !! event'.
Proof.
  intros Hne. unfold off.
  destruct (listeners st !! event) as [l|]; [|done].
  destruct (indexOf c l); [|done]. simpl. by rewrite lookup_insert_ne.
Qed.

Lemma on_rest event c st : rest_of (on event c st) = rest_of st ∧ log (on event c st) = log st.
Proof. done. Qed.

Lemma off_rest event c st : rest_of (off event c st) = rest_of st ∧ log (off event c st) = log st.
Proof.
  unfold off. destruct (listeners st !! event) as [l|]; [|done].
  by destruct (indexOf c l).
Qed.

Lemma run_body_rest acts st :
  rest_of (run_body acts st).1 = rest_of st ∧ log (run_body acts st).1 = log st.
Proof.
  revert st. induction acts as [|[ev c|ev c|e] acts IH]; intros st; simpl; [done| | |done].
  - destruct (IH (on ev c st)) as [-> ->]. apply on_rest.
  - destruct (IH (off ev c st)) as [-> ->]. apply off_rest.
Qed.

Lemma run_body_throw acts st :
  (run_body acts st).2 = from_option Throws Normal (first_throw acts).
Proof.
  revert st. induction acts as [|[ev c|ev c|e] acts IH]; intros st; simpl; auto.
Qed.

Lemma run_body_tame event acts st l :
  tame event acts = true →
  listeners st !! event = Some l →
  ∃ st' added, run_body acts st = (st', Normal) ∧
               listeners st' !! event = Some (l ++ added).
Proof.
  unfold tame. rewrite andb_true_iff, bool_decide_eq_true.
  revert st l. induction acts as [|[ev c|ev c|e] acts IH]; intros st l [Hthrow Hoff] Hl; simpl in *.
  - exists st, []. by rewrite app_nil_r.
  - destruct (IH (on ev c st) (if decide (ev = event) then l ++ [c] else l))
      as (st' & added & Hrun & Hl'); [done| |].
    { rewrite on_lookup. destruct (decide (ev = event)) as [->|]; [|done]. by rewrite Hl. }
    destruct (decide (ev = event)).
    + exists st', (c :: added). split; [done|]. by rewrite Hl', <- app_assoc.
    + by exists st', added.
  - apply andb_true_iff in Hoff as [Hev Hoff]. apply bool_decide_eq_true in Hev.
    apply (IH (off ev c st) l); [done|]. by rewrite off_lookup_ne.
  - done.
Qed.

Lemma calls_app l1 l2 : calls (l1 ++ l2) = calls l1 ++ calls l2.
Proof. apply omap_app. Qed.

Lemma calls_IoCall event arg (l : list cbid) :
  calls ((λ c, IoCall c event arg) <$> l) = (λ c, (c, event, arg)) <$> l.
Proof. induction l as [|c l IH]; [done|]. simpl. f_equal. exact IH. Qed.

(** The loop of [forEach] over a list whose callbacks are tame: from index
    [k] on, the callbacks of the list as it was at the start are called in
    order, whatever has been appended meanwhile. *)
Lemma forEach_tame event arg l : 
  Forall (λ c, tame event (listener_body c arg) = true) l →
  ∀ remaining k st added,
    k + remaining = length l →
    listeners st !! event = Some (l ++ added) →
    ∃ st' added', forEach remaining k event arg st = (st', Normal) ∧
      listeners st' !! event = Some (l ++ added') ∧
      rest_of st' = rest_of st ∧
      log st' = log st ++ ((λ c, IoCall c event arg) <$> drop k l).
Proof.
  intros Htame. induction remaining as [|n IH]; intros k st added Hk Hl; simpl.
  - exists st, added. rewrite drop_ge by lia. by rewrite app_nil_r.
  - rewrite Hl; simpl.
    destruct (l !! k) as [c|] eqn:Hc; [|apply lookup_ge_None in Hc; lia].
    rewrite (lookup_app_l_Some _ _ _ _ Hc).
    unfold call.
    destruct (run_body_tame event (listener_body c arg) (effect (IoCall c event arg) st) (l ++ added))
      as (st1 & added1 & Hrun & Hl1); [|done|].
    { rewrite Forall_forall in Htame. apply Htame. by eapply list_elem_of_lookup_2. }
    rewrite Hrun.
    destruct (IH (S k) st1 (added ++ added1)) as (st' & added' & Hfor & Hl' & Hrest & Hlog);
      [lia|by rewrite Hl1, app_assoc|].
    exists st', added'. split; [done|]. split; [done|].
    pose proof (run_body_rest (listener_body c arg) (effect (IoCall c event arg) st)) as [Hr1 Hlog1].
    rewrite Hrun in Hr1, Hlog1; simpl in Hr1, Hlog1.
    split; [by rewrite Hrest, Hr1|].
    rewrite Hlog, Hlog1; simpl. rewrite (drop_S _ _ _ Hc); simpl.
    by rewrite <- app_assoc.
Qed.

Lemma emit_tame event arg st l :
  listeners st !! event = Some l →
  Forall (λ c, tame event (listener_body c arg) = true) l →
  ∃ st' added, emit event arg st = (st', Normal) ∧
    listeners st' !! event = Some (l ++ added) ∧
    rest_of st' = rest_of st ∧
    log st' = log st ++ ((λ c, IoCall c event arg) <$> l).
Proof.
  intros Hl Htame. unfold emit. rewrite Hl.
  destruct (forEach_tame event arg l Htame (length l) 0 st []) as (st' & added & H);
    [done|by rewrite app_nil_r|].
  by exists st', added.
Qed.

End Registry.

Section Dispatch.
Context `{E : Env}.

Lemma forEach_until_throw event arg pre c post e :
  Forall (λ c', tame event (listener_body c' arg) = true) pre →
  first_throw (listener_body c arg) = Some e →
  ∀ remaining k st added,
    k ≤ length pre < k + remaining →
    listeners st !! event = Some ((pre ++ c :: post) ++ added) →
    ∃ st', forEach remaining k event arg st = (st', Throws e) ∧
      log st' = log st ++ ((λ c', IoCall c' event arg) <$> drop k (pre ++ [c])).
Proof.
  intros Htame Hthrow. induction remaining as [|n IH]; intros k st added Hk Hl; [lia|].
  simpl. rewrite Hl; simpl.
  destruct (decide (k = length pre)) as [->|Hne].
  - rewrite <- app_assoc, <- app_comm_cons, list_lookup_middle by done. unfold call.
    destruct (run_body _ _) as [st1 r] eqn:Hrun.
    pose proof (run_body_throw (listener_body c arg) (effect (IoCall c event arg) st)) as Hr.
    pose proof (run_body_rest (listener_body c arg) (effect (IoCall c event arg) st)) as [_ Hlog].
    rewrite Hrun in Hr, Hlog; simpl in Hr, Hlog. rewrite Hthrow in Hr; simpl in Hr. subst r.
    exists st1. split; [done|]. rewrite Hlog, drop_app_length. done.
  - assert (k < length pre) as Hlt by lia.
    destruct (pre !! k) as [c'|] eqn:Hc; [|apply lookup_ge_None in Hc; lia].
    rewrite <- app_assoc, (lookup_app_l_Some _ _ _ _ Hc). unfold call.
    destruct (run_body_tame event (listener_body c' arg) (effect (IoCall c' event arg) st)
                ((pre ++ c :: post) ++ added)) as (st1 & added1 & Hrun & Hl1).
    { rewrite Forall_forall in Htame. apply Htame. by eapply list_elem_of_lookup_2. }
    { simpl. by rewrite Hl, <- app_assoc. }
    rewrite Hrun.
    destruct (IH (S k) st1 (added ++ added1)) as (st' & Hfor & Hlog);
      [lia|by rewrite Hl1, app_assoc|].
    exists st'. split; [done|].
    pose proof (run_body_rest (listener_body c' arg) (effect (IoCall c' event arg) st)) as [_ Hlog1].
    rewrite Hrun in Hlog1; simpl in Hlog1.
    rewrite Hlog, Hlog1. rewrite (drop_S (pre ++ [c]) c' k) by (by apply lookup_app_l_Some).
    simpl. by rewrite <- app_assoc.
Qed.

Lemma run_body_registers event acts st l :
  tame event acts = true →
  listeners st !! event = Some l →
  listeners (run_body acts st).1 !! event = Some (l ++ registered event acts).
Proof.
  unfold tame. rewrite andb_true_iff, bool_decide_eq_true.
  revert st l. induction acts as [|[ev c|ev c|e] acts IH]; intros st l [Hthrow Hoff] Hl; simpl in *.
  - by rewrite app_nil_r.
  - rewrite (IH (on ev c st) (if decide (ev = event) then l ++ [c] else l)); [|done|].
    + destruct (decide (ev = event)); [|done]. by rewrite <- app_assoc.
    + rewrite on_lookup. destruct (decide (ev = event)) as [->|]; [|done]. by rewrite Hl.
  - apply andb_true_iff in Hoff as [Hev Hoff]. apply bool_decide_eq_true in Hev.
    apply (IH (off ev c st) l); [done|]. by rewrite off_lookup_ne.
  - done.
Qed.

Lemma forEach_registers event arg l :
  Forall (λ c, tame event (listener_body c arg) = true) l →
  ∀ remaining k st added,
    k + remaining = length l →
    listeners st !! event = Some (l ++ added) →
    listeners (forEach remaining k event arg st).1 !! event
    = Some (l ++ added ++ (drop k l ≫= λ c, registered event (listener_body c arg))).
Proof.
  intros Htame. induction remaining as [|n IH]; intros k st added Hk Hl; simpl.
  - rewrite drop_ge by lia. simpl. by rewrite app_nil_r.
  - rewrite Hl; simpl.
    destruct (l !! k) as [c|] eqn:Hc; [|apply lookup_ge_None in Hc; lia].
    rewrite (lookup_app_l_Some _ _ _ _ Hc).
    assert (tame event (listener_body c arg) = true) as Hc'.
    { rewrite Forall_forall in Htame. apply Htame. by eapply list_elem_of_lookup_2. }
    unfold call.
    pose proof (run_body_registers event (listener_body c arg)
                  (effect (IoCall c event arg) st) (l ++ added) Hc' Hl) as Hl1.
    destruct (run_body_tame event (listener_body c arg) (effect (IoCall c event arg) st)
                (l ++ added) Hc' Hl) as (st1 & added1 & Hrun & _).
    rewrite Hrun in Hl1 |- *. simpl in Hl1 |- *.
    rewrite (IH (S k) st1 (added ++ registered event (listener_body c arg)));
      [|lia|by rewrite Hl1, app_assoc].
    rewrite (drop_S _ _ _ Hc). simpl. by rewrite <- !app_assoc.
Qed.

Lemma emit_registers event arg st l :
  listeners st !! event = Some l →
  Forall (λ c, tame event (listener_body c arg) = true) l →
  listeners (emit event arg st).1 !! event
  = Some (l ++ (l ≫= λ c, registered event (listener_body c arg))).
Proof.
  intros Hl Htame. unfold emit. rewrite Hl.
  rewrite (forEach_registers event arg l Htame (length l) 0 st []); [done|done|].
  by rewrite app_nil_r.
Qed.

(** C1, as the code has it: [emit] walks the live array by index, up to the
    length it had when [emit] started. When none of the callbacks called
    unregisters a listener of the event or throws, the payload reaches
    exactly the callbacks registered at the start, each once, in
    registration order. The callbacks that those register for the event
    during the dispatch are appended behind that length, in the order of
    their registration: they are not called in this pass, they are in the
    list afterwards, and the next [emit] calls them after the others. *)
Theorem emit_delivers_snapshot_when_none_removed event arg st :
  let l := default [] (listeners st !! event) in
  let added := l ≫= λ c, registered event (listener_body c arg) in
  let st' := (emit event arg st).1 in
  Forall (λ c, tame event (listener_body c arg) = true) l →
  delivers_snapshot event arg st ∧
  (emit event arg st).2 = Normal ∧
  listeners st' !! event = (λ l, l ++ added) <$> listeners st !! event ∧
  (∀ arg', Forall (λ c, tame event (listener_body c arg') = true) (l ++ added) →
           calls (log (emit event arg' st').1)
           = calls (log st') ++ ((λ c, (c, event, arg')) <$> (l ++ added))).
Proof.
  intros l added st' Htame. unfold delivers_snapshot, st', added, l in *. clear l added st'.
  destruct (listeners st !! event) as [l|] eqn:Hl; simpl in *.
  - pose proof (emit_registers event arg st l Hl Htame) as Hreg.
    destruct (emit_tame event arg st l Hl Htame) as (st' & added & Hemit & _ & _ & Hlog).
    rewrite Hemit in Hreg |- *. simpl in Hreg |- *.
    rewrite Hlog, calls_app. split; [|split; [done|split; [done|]]].
    { f_equal. apply calls_IoCall. }
    intros arg' Htame'.
    destruct (emit_tame event arg' st' _ Hreg Htame') as (st2 & added2 & -> & _ & _ & Hlog2).
    simpl. by rewrite Hlog2, Hlog, !calls_app, !calls_IoCall.
  - unfold emit. rewrite Hl; simpl. rewrite app_nil_r, Hl.
    split; [done|]. split; [done|]. split; [done|].
    by intros arg' _.
Qed.

(** C6, as the code has it: an exception thrown by a callback leaves
    [forEach] at once. The callbacks registered before the one that throws
    have been called, none registered after it is called for that [emit], and
    the exception reaches the caller of [emit]. *)
Theorem emit_stops_at_first_throw event arg st pre c post e :
  listeners st !! event = Some (pre ++ c :: post) →
  Forall (λ c', tame event (listener_body c' arg) = true) pre →
  first_throw (listener_body c arg) = Some e →
  (emit event arg st).2 = Throws e ∧
  calls (log (emit event arg st).1) =
    calls (log st) ++ ((λ c', (c', event, arg)) <$> (pre ++ [c])).
Proof.
  intros Hl Htame Hthrow. unfold emit. rewrite Hl.
  destruct (forEach_until_throw event arg pre c post e Htame Hthrow
              (length (pre ++ c :: post)) 0 st []) as (st' & -> & Hlog).
  { rewrite length_app; simpl; lia. }
  { by rewrite app_nil_r. }
  simpl. split; [done|]. rewrite Hlog, calls_app, drop_0. f_equal.
  apply calls_IoCall.
Qed.

End Dispatch.

(** C1 fails as stated: when the first of three listeners unregisters itself
    during the dispatch, the second one is skipped. *)
Lemma self_unregistering_listener_skips_next :
  let E := example_env once_only in
  listeners three_listeners !! "telemetry" = Some [0; 1; 2] ∧
  calls (log (emit "telemetry" PTrue three_listeners).1)
    = [(0, "telemetry", PTrue); (2, "telemetry", PTrue)] ∧
  ¬ delivers_snapshot "telemetry" PTrue three_listeners.
Proof.
  split; [by vm_compute|]. split; [by vm_compute|].
  unfold delivers_snapshot. vm_compute. discriminate.
Qed.

(** An instance: the first of three listeners registers a fourth one during
    the dispatch. *)
Lemma emit_delivers_snapshot_witness :
  let E := example_env (λ c, if decide (c = 0) then [AOn "telemetry" 7] else []) in
  let st' := (emit "telemetry" PTrue three_listeners).1 in
  delivers_snapshot "telemetry" PTrue three_listeners ∧
  calls (log st') = [(0, "telemetry", PTrue); (1, "telemetry", PTrue); (2, "telemetry", PTrue)] ∧
  (emit "telemetry" PTrue three_listeners).2 = Normal ∧
  listeners st' !! "telemetry" = Some [0; 1; 2; 7] ∧
  calls (log (emit "telemetry" PTrue st').1)
  = calls (log st') ++ ((λ c, (c, "telemetry", PTrue)) <$> [0; 1; 2; 7]).
Proof.
  intros E st'.
  destruct (emit_delivers_snapshot_when_none_removed (E := E) "telemetry" PTrue three_listeners)
    as (Hsnap & Hnormal & Hlist & Hnext).
  { vm_compute. repeat constructor. }
  split; [exact Hsnap|]. split; [exact Hsnap|]. split; [exact Hnormal|].
  split; [exact Hlist|].
  apply (Hnext PTrue). vm_compute. repeat constructor.
Defined.

(** C6 fails as stated: a listener that throws keeps the payload from the
    listener registered after it, and the exception leaves [emit]. *)
Lemma throwing_listener_stops_dispatch :
  let E := example_env faulty in
  let st := on "alert" 1 (on "alert" 0 (new_ApiClient 0)) in
  (emit "alert" PTrue st).2 = Throws (ThrownError "render failed") ∧
  calls (log (emit "alert" PTrue st).1) = [(0, "alert", PTrue)] ∧
  ¬ isolates_failures "alert" PTrue st.
Proof.
  split; [by vm_compute|]. split; [by vm_compute|].
  intros [H _]. vm_compute in H. discriminate.
Qed.

(** An instance: the second of three listeners throws. *)
Lemma emit_stops_at_first_throw_witness :
  let E := example_env (λ c, if decide (c = 1) then [AThrow ThrownOther] else []) in
  (emit "telemetry" PTrue three_listeners).2 = Throws ThrownOther ∧
  calls (log (emit "telemetry" PTrue three_listeners).1) =
    calls (log three_listeners) ++ ((λ c', (c', "telemetry", PTrue)) <$> ([0] ++ [1])).
Proof.
  intros E.
  apply (emit_stops_at_first_throw (E := E) "telemetry" PTrue three_listeners [0] 1 [2]).
  - by vm_compute.
  - vm_compute. repeat constructor.
  - by vm_compute.
Defined.

Section Requests.
Context `{E : Env}.

Lemma transport_app l1 l2 : transport (l1 ++ l2) = transport l1 ++ transport l2.
Proof. apply omap_app. Qed.

Lemma delays_transport l : delays (transport l) = delays l.
Proof. induction l as [|[] l IH]; simpl; auto. by f_equal. Qed.

Lemma fetches_transport l : fetches (transport l) = fetches l.
Proof. unfold fetches. induction l as [|[] l IH]; simpl; auto. Qed.

Lemma forEach_rest remaining k event arg st :
  rest_of (forEach remaining k event arg st).1 = rest_of st ∧
  transport (log (forEach remaining k event arg st).1) = transport (log st).
Proof.
  revert k st. induction remaining as [|n IH]; intros k st; simpl; [done|].
  destruct (listeners st !! event ≫= _) as [c|]; [|apply IH].
  unfold call. destruct (run_body _ _) as [st1 r] eqn:Hrun.
  pose proof (run_body_rest (listener_body c arg) (effect (IoCall c event arg) st)) as [Hr Hlog].
  rewrite Hrun in Hr, Hlog; simpl in Hr, Hlog.
  assert (transport (log st1) = transport (log st)) as Ht.
  { rewrite Hlog, transport_app; simpl. apply app_nil_r. }
  destruct r; simpl; [|done].
  destruct (IH (S k) st1) as [-> ->]. done.
Qed.

Lemma emit_rest event arg st :
  rest_of (emit event arg st).1 = rest_of st ∧
  transport (log (emit event arg st).1) = transport (log st).
Proof. unfold emit. destruct (listeners st !! event); [apply forEach_rest|done]. Qed.

Lemma forEach_quiet remaining k event arg st :
  quiet → (forEach remaining k event arg st).2 = Normal.
Proof.
  intros Hq. revert k st. induction remaining as [|n IH]; intros k st; simpl; [done|].
  destruct (listeners st !! event ≫= _) as [c|]; [|apply IH].
  unfold call. destruct (run_body _ _) as [st1 r] eqn:Hrun.
  pose proof (run_body_throw (listener_body c arg) (effect (IoCall c event arg) st)) as Hr.
  rewrite Hrun, Hq in Hr; simpl in Hr. subst r. apply IH.
Qed.

Lemma emit_quiet event arg st : quiet → (emit event arg st).2 = Normal.
Proof.
  intros Hq. unfold emit. destruct (listeners st !! event); [by apply forEach_quiet|done].
Qed.

(** What [updateConnectionStatus] leaves behind, whether or not a listener
    threw. *)
Lemma updateConnectionStatus_spec connected' latency' st :
  let st' := (updateConnectionStatus connected' latency' st).1 in
  status st' =
    {| connected := connected';
       lastUpdated := toISOString (now st);
       latency := match latency' with
                  | Some l => if decide (l = 0%Z) then latency (status st) else l
                  | None => latency (status st)
                  end;
       errorCount := if connected' then 0%Z else errorCount (status st) |} ∧
  well_formed st' ∧
  now st' = now st ∧ ws st' = ws st ∧ sockets st' = sockets st ∧ timers st' = timers st ∧
  transport (log st') = transport (log st).
Proof.
  unfold updateConnectionStatus, alloc; simpl.
  match goal with |- context [emit ?ev ?a ?s] =>
    destruct (emit_rest ev a s) as [Hrest Hlog]; set (st' := (emit ev a s).1) in * end.
  unfold rest_of in Hrest; simpl in Hrest.
  injection Hrest as Hc Hws Hheap Hsock Htim Hnow.
  unfold status, well_formed. rewrite Hc, Hheap, Hlog.
  rewrite list_lookup_middle by done. rewrite length_app; simpl.
  repeat split; auto; lia.
Qed.

Lemma increment_errorCount_spec st :
  well_formed st →
  let st' := increment_errorCount st in
  errorCount (status st') = (errorCount (status st) + 1)%Z ∧
  well_formed st' ∧ now st' = now st ∧ log st' = log st.
Proof.
  unfold well_formed, increment_errorCount, status; simpl. intros Hwf.
  destruct (lookup_lt_is_Some_2 _ _ Hwf) as [o Ho].
  rewrite list_lookup_alter_eq, Ho, length_alter. simpl. repeat split; done.
Qed.

Lemma updateConnectionStatus_quiet connected' latency' st :
  quiet → (updateConnectionStatus connected' latency' st).2 = Normal.
Proof. intros Hq. unfold updateConnectionStatus, alloc. by apply emit_quiet. Qed.

Lemma attempts_S cfg net url startTime n attempt st :
  attempts cfg net url startTime (S n) attempt st =
    match try_block net url startTime attempt st with
    | (st, Returned r) => (st, Resolved r)
    | (st, Hung) => (st, Pending)
    | (st, Raised e) =>
        catch_block cfg attempt (attempts cfg net url startTime n (attempt + 1)%Z) e st
    end.
Proof. done. Qed.

(** An attempt that the endpoint fails ends in the [catch] block after one
    call of [fetch]; the error caught is the endpoint's, unless a listener
    threw first. *)
Lemma try_block_fails net url startTime attempt st :
  is_Some (failure (net attempt)) →
  ∃ st1 e, try_block net url startTime attempt st = (st1, Raised e) ∧
           transport (log st1) = transport (log st) ++ [IoFetch url] ∧
           (quiet → failure (net attempt) = Some e).
Proof.
  intros [e0 Hf]. unfold failure in *. unfold try_block.
  destruct (outcome (net attempt)) as [e'|code text rt body|]; [| |done].
  - exists (advance (took (net attempt)) (effect (IoFetch url) st)), e'.
    split; [done|]. split; [|done]. simpl. by rewrite transport_app.
  - match goal with |- context [updateConnectionStatus ?c ?l ?s] =>
      pose proof (λ Hq, updateConnectionStatus_quiet c l s Hq) as Hn;
      pose proof (updateConnectionStatus_spec c l s) as (_ & _ & _ & _ & _ & _ & Hlog);
      destruct (updateConnectionStatus c l s) as [st1 r] end.
    simpl in Hn, Hlog. rewrite transport_app in Hlog. simpl in Hlog.
    destruct r as [|e1].
    + destruct (ok code).
      * destruct body as [v|e'|]; [done| |done]. by exists (advance rt st1), e'.
      * by eexists st1, _.
    + exists st1, e1. split; [done|]. split; [done|]. intros Hq. by specialize (Hn Hq).
Qed.

Lemma attempts_all_fail cfg net url startTime N :
  retryAttempts cfg = N →
  ∀ n attempt st,
    (attempt + Z.of_nat n = N)%Z →
    (∀ i, (attempt ≤ i ≤ N)%Z → is_Some (failure (net i))) →
    ∃ st' r,
      attempts cfg net url startTime (S n) attempt st = (st', r) ∧
      transport (log st') =
        transport (log st)
        ++ (seqZ attempt (Z.of_nat n) ≫= λ i, [IoFetch url; IoSleep (1000 * 2 ^ i)%Z])
        ++ [IoFetch url] ∧
      (quiet → ∃ e, failure (net N) = Some e ∧
                    r = Resolved {| success := false; data := None;
                                    error := Some (error_message e);
                                    timestamp := Some (toISOString (now st')) |}).
Proof.
  intros HN. induction n as [|n IH]; intros attempt st Hsum Hfail.
  - assert (attempt = N) as -> by lia.
    destruct (try_block_fails net url startTime N st (Hfail N ltac:(lia)))
      as (st1 & e & Htry & Hlog & He).
    rewrite attempts_S, Htry. unfold catch_block. rewrite decide_True by done.
    match goal with |- context [updateConnectionStatus ?c ?l ?s] =>
      pose proof (λ Hq, updateConnectionStatus_quiet c l s Hq) as Hn;
      pose proof (updateConnectionStatus_spec c l s) as (_ & _ & _ & _ & _ & _ & Hlog2);
      destruct (updateConnectionStatus c l s) as [st2 r] end.
    simpl in Hn, Hlog2.
    assert (transport (log st2) = transport (log st) ++ [] ++ [IoFetch url]) as Ht
      by (by rewrite Hlog2).
    destruct r as [|e'].
    + eexists st2, _. split; [done|]. split; [done|]. intros Hq. exists e. auto.
    + eexists st2, _. split; [done|]. split; [done|]. intros Hq. by specialize (Hn Hq).
  - destruct (try_block_fails net url startTime attempt st (Hfail attempt ltac:(lia)))
      as (st1 & e & Htry & Hlog & _).
    rewrite attempts_S, Htry. unfold catch_block. rewrite decide_False by lia.
    destruct (IH (attempt + 1)%Z (sleep (2 ^ attempt * 1000) (increment_errorCount st1)))
      as (st' & r & Hrun & Hlog' & Hres); [lia|intros; apply Hfail; lia|].
    exists st', r. split; [done|]. split; [|done].
    rewrite Hlog'. simpl. rewrite transport_app, Hlog. simpl.
    rewrite (seqZ_cons attempt) by lia. simpl.
    replace (Z.pred (Z.of_nat (S n))) with (Z.of_nat n) by lia.
    replace (Z.succ attempt) with (attempt + 1)%Z by lia.
    rewrite (Z.mul_comm 1000). by rewrite <- !app_assoc.
Qed.

Lemma fetches_retries url (l : list Z) :
  fetches (l ≫= λ i, [IoFetch url; IoSleep (1000 * 2 ^ i)%Z]) = length l.
Proof. unfold fetches. induction l as [|i l IH]; simpl; [done|]. f_equal. exact IH. Qed.

Lemma delays_retries url (l : list Z) :
  delays (l ≫= λ i, [IoFetch url; IoSleep (1000 * 2 ^ i)%Z]) = (λ i, 1000 * 2 ^ i)%Z <$> l.
Proof. induction l as [|i l IH]; simpl; [done|]. f_equal. exact IH. Qed.

Lemma fetches_app l1 l2 : fetches (l1 ++ l2) = fetches l1 + fetches l2.
Proof. unfold fetches. by rewrite omap_app, length_app. Qed.

Lemma delays_app l1 l2 : delays (l1 ++ l2) = delays l1 ++ delays l2.
Proof. apply omap_app. Qed.

(** The time an attempt that the endpoint fails has taken when the [catch]
    block is entered. *)
Lemma try_block_fails_now net url startTime attempt st :
  quiet → is_Some (failure (net attempt)) →
  now (try_block net url startTime attempt st).1 = (now st + spent (net attempt))%Z.
Proof.
  intros Hq [e He]. unfold failure in He. unfold try_block, spent.
  destruct (outcome (net attempt)) as [e'|code text rt body|]; [done| |done].
  cbv zeta.
  match goal with |- context [updateConnectionStatus ?c ?l ?s] =>
    pose proof (updateConnectionStatus_quiet c l s Hq) as Hn;
    pose proof (updateConnectionStatus_spec c l s) as (_ & _ & Hnow & _);
    destruct (updateConnectionStatus c l s) as [st1 r] end.
  simpl in Hn, Hnow. subst r.
  destruct (ok code); [destruct body as [v|e'|]|]; simpl; try done; rewrite Hnow; lia.
Qed.

(** A delay within the range of the host's timers is waited for as asked:
    this covers the delays of the first 22 retries. *)
Lemma timer_wait_exact ms : (1 ≤ ms ≤ 2147483647)%Z → timer_wait ms = ms.
Proof. intros Hms. unfold timer_wait. by rewrite decide_True. Qed.

Lemma backoff_in_range i : (0 ≤ i ≤ 21)%Z → (1 ≤ 1000 * 2 ^ i ≤ 2147483647)%Z.
Proof.
  intros Hi.
  assert (0 < 2 ^ i)%Z by (apply Z.pow_pos_nonneg; lia).
  assert (2 ^ i ≤ 2 ^ 21)%Z as Hle by (apply Z.pow_le_mono_r; lia).
  change (2 ^ 21)%Z with 2097152%Z in Hle. lia.
Qed.

Lemma waits_as_asked net (l : list Z) (b : Z) :
  Forall (λ i, 0 ≤ i ≤ 21)%Z l →
  foldr (λ i acc, (spent (net i) + timer_wait (1000 * 2 ^ i) + acc)%Z) b l
  = (foldr (λ i acc, (spent (net i) + 1000 * 2 ^ i + acc)%Z) 0%Z l + b)%Z.
Proof.
  induction 1 as [|i l Hi _ IH]; simpl; [done|].
  rewrite IH, (timer_wait_exact _ (backoff_in_range i Hi)). lia.
Qed.

Lemma waited_as_asked net (k b : Z) :
  (k ≤ 22)%Z →
  foldr (λ i acc, (spent (net i) + timer_wait (1000 * 2 ^ i) + acc)%Z) b (seqZ 0 k)
  = (waited net k + b)%Z.
Proof.
  intros Hk. unfold waited. apply waits_as_asked, Forall_seqZ. intros i Hi. lia.
Qed.

(** The clock after a request whose attempts all fail: every attempt has
    taken its time and every wait the time its timer waits. *)
Lemma attempts_all_fail_clock cfg net url startTime N :
  quiet → retryAttempts cfg = N →
  ∀ n attempt st,
    (attempt + Z.of_nat n = N)%Z →
    (∀ i, (attempt ≤ i ≤ N)%Z → is_Some (failure (net i))) →
    now (attempts cfg net url startTime (S n) attempt st).1
    = (now st + foldr (λ i acc, (spent (net i) + timer_wait (1000 * 2 ^ i) + acc)%Z)
                      (spent (net N)) (seqZ attempt (Z.of_nat n)))%Z.
Proof.
  intros Hq HN. induction n as [|n IH]; intros attempt st Hsum Hfail.
  - assert (attempt = N) as -> by lia.
    pose proof (try_block_fails_now net url startTime N st Hq (Hfail N ltac:(lia))) as Hnow1.
    destruct (try_block_fails net url startTime N st (Hfail N ltac:(lia)))
      as (st1 & e & Htry & _).
    rewrite Htry in Hnow1; simpl in Hnow1.
    rewrite attempts_S, Htry. unfold catch_block. rewrite decide_True by done.
    match goal with |- context [updateConnectionStatus ?c ?l ?s] =>
      pose proof (updateConnectionStatus_spec c l s) as (_ & _ & Hnow2 & _);
      destruct (updateConnectionStatus c l s) as [st2 r] end.
    simpl in Hnow2. change (now (increment_errorCount st1)) with (now st1) in Hnow2.
    destruct r; simpl; rewrite Hnow2, Hnow1; done.
  - pose proof (try_block_fails_now net url startTime attempt st Hq (Hfail attempt ltac:(lia)))
      as Hnow1.
    destruct (try_block_fails net url startTime attempt st (Hfail attempt ltac:(lia)))
      as (st1 & e & Htry & _).
    rewrite Htry in Hnow1; simpl in Hnow1.
    rewrite attempts_S, Htry. unfold catch_block. rewrite decide_False by lia.
    rewrite IH by (lia || (intros; apply Hfail; lia)).
    rewrite (seqZ_cons attempt (Z.of_nat (S n))) by lia.
    replace (Z.pred (Z.of_nat (S n))) with (Z.of_nat n) by lia.
    replace (Z.succ attempt) with (attempt + 1)%Z by lia.
    cbn [foldr].
    change (now (sleep ?ms ?s)) with (now s + timer_wait ms)%Z.
    change (now (increment_errorCount st1)) with (now st1).
    rewrite Hnow1, (Z.mul_comm (2 ^ attempt) 1000). lia.
Qed.

(** An attempt whose [fetch] never settles ends the loop there, whatever
    came before it: the attempts before it have been made and waited for, and
    after the call of [fetch] nothing happens. *)
Lemma attempts_pending_after cfg net url startTime N k :
  retryAttempts cfg = N → (k ≤ N)%Z → outcome (net k) = FetchPending →
  ∀ j remaining attempt st,
    (attempt + Z.of_nat j = k)%Z → (j ≤ remaining)%nat →
    (∀ i, (attempt ≤ i < k)%Z → is_Some (failure (net i))) →
    let res := attempts cfg net url startTime (S remaining) attempt st in
    res.2 = Pending ∧
    transport (log res.1) =
      transport (log st)
      ++ (seqZ attempt (Z.of_nat j) ≫= λ i, [IoFetch url; IoSleep (1000 * 2 ^ i)%Z])
      ++ [IoFetch url].
Proof.
  intros HN HkN Hout. induction j as [|j IH]; intros remaining attempt st Hsum Hrem Hfail.
  - assert (attempt = k) as -> by lia. cbv zeta.
    rewrite attempts_S. unfold try_block. rewrite Hout. simpl.
    by rewrite transport_app.
  - cbv zeta.
    destruct (try_block_fails net url startTime attempt st (Hfail attempt ltac:(lia)))
      as (st1 & e & Htry & Hlog & _).
    rewrite attempts_S, Htry. unfold catch_block. rewrite decide_False by lia.
    destruct remaining as [|remaining]; [lia|].
    destruct (IH remaining (attempt + 1)%Z (sleep (2 ^ attempt * 1000) (increment_errorCount st1)))
      as (Hres & Htr); [lia|lia|intros; apply Hfail; lia|].
    split; [done|].
    rewrite (seqZ_cons attempt (Z.of_nat (S j))) by lia.
    replace (Z.pred (Z.of_nat (S j))) with (Z.of_nat j) by lia.
    replace (Z.succ attempt) with (attempt + 1)%Z by lia.
    rewrite Htr. simpl. rewrite transport_app, Hlog. simpl.
    rewrite (Z.mul_comm 1000). by rewrite <- !app_assoc.
Qed.

(** C5, as the code has it: with [retryAttempts = N], an endpoint that
    fails every time is called exactly [N + 1] times, and before attempt
    [i + 1] the executor asks the timer for [1000 * 2 ^ i] milliseconds, so
    the delays grow strictly (the product is exact as a JavaScript number as
    long as it is finite, which covers 1015 retries); this much holds whether
    or not a listener throws. When no listener throws, the request then resolves to a failure
    that carries the message of the last error: the message of the [Error]
    that [fetch] or the decoding of the body threw, [HTTP status: text] for a
    response outside 200-299, [Unknown error] for a thrown value that is no
    [Error]. Up to 22 retries every delay is within the range of the host's
    timers, and the waits then last as long as asked: the request ends after
    the time of its attempts and the sum of the delays. *)
Theorem request_exhausts_retries cfg net endpoint st N :
  retryAttempts cfg = N → (0 ≤ N)%Z →
  (∀ i, (0 ≤ i ≤ N)%Z → is_Some (failure (net i))) →
  let st' := (request cfg net endpoint st).1 in
  let url := baseUrl cfg +:+ endpoint in
  fetches (log st') = fetches (log st) + Z.to_nat (N + 1) ∧
  ((N ≤ 1015)%Z →
   transport (log st') =
     transport (log st)
     ++ (seqZ 0 N ≫= λ i, [IoFetch url; IoSleep (1000 * 2 ^ i)%Z])
     ++ [IoFetch url] ∧
   delays (log st') = delays (log st) ++ ((λ i, 1000 * 2 ^ i)%Z <$> seqZ 0 N)) ∧
  (∀ i j, (0 ≤ i < j)%Z → (1000 * 2 ^ i < 1000 * 2 ^ j)%Z) ∧
  (quiet →
   ∃ e message,
     failure (net N) = Some e ∧
     (request cfg net endpoint st).2
     = Resolved {| success := false; data := None; error := Some message;
                   timestamp := Some (toISOString (now st')) |} ∧
     match e with ThrownError m => message = m | ThrownOther => message = "Unknown error" end ∧
     match outcome (net N) with
     | FetchRejects e' => e = e'
     | FetchResponds code text _ body =>
         if ok code then body = BodyFails e
         else e = ThrownError ("HTTP " +:+ pretty code +:+ ": " +:+ text)
     | FetchPending => False
     end ∧
     ((N ≤ 22)%Z → now st' = (now st + waited net N + spent (net N))%Z)).
Proof.
  intros HN Hpos Hfail st' url.
  assert (quiet → (N ≤ 22)%Z → now st' = (now st + waited net N + spent (net N))%Z) as Hclock.
  { intros Hq HN22. unfold st', request.
    replace (Z.to_nat (retryAttempts cfg + 1)) with (S (Z.to_nat N)) by lia.
    rewrite (attempts_all_fail_clock cfg net _ _ N Hq HN (Z.to_nat N) 0%Z st) by (lia || done).
    rewrite Z2Nat.id by done. rewrite waited_as_asked by done. lia. }
  revert Hclock. unfold st', request. fold url.
  replace (Z.to_nat (retryAttempts cfg + 1)) with (S (Z.to_nat N)) by lia.
  destruct (attempts_all_fail cfg net url (now st) N HN (Z.to_nat N) 0%Z st)
    as (st2 & r & -> & Hlog & Hres); [lia|done|].
  rewrite Z2Nat.id in Hlog by done. simpl. intros Hclock.
  split; [|split; [|split]].
  - rewrite <- (fetches_transport (log st2)), Hlog, !fetches_app, fetches_transport.
    rewrite fetches_retries, length_seqZ. unfold fetches; simpl. lia.
  - intros _. split; [done|].
    rewrite <- (delays_transport (log st2)), Hlog, !delays_app, delays_transport.
    rewrite delays_retries. simpl. by rewrite app_nil_r.
  - intros i j Hij. apply Z.mul_lt_mono_pos_l; [lia|]. apply Z.pow_lt_mono_r; lia.
  - intros Hq. destruct (Hres Hq) as (e & He & ->).
    exists e, (error_message e). split; [done|]. split; [done|].
    split; [by destruct e|]. split; [|by apply Hclock].
    unfold failure in He. destruct (outcome (net N)) as [e'|code text rt body|]; [| |done].
    + by injection He.
    + destruct (ok code); [|by injection He as <-].
      destruct body as [v|e'|]; try done. by injection He as ->.
Qed.

(** An attempt that the endpoint fails reaches the [catch] block; on the way
    [errorCount] is untouched when [fetch] rejected and has been set to 0
    when a response came. *)
Lemma try_block_raises net url startTime attempt st :
  well_formed st → is_Some (failure (net attempt)) →
  ∃ st1 e, try_block net url startTime attempt st = (st1, Raised e) ∧
           well_formed st1 ∧
           (errorCount (status st1) + 1)%Z
           = errorCount_after (net attempt) (errorCount (status st)).
Proof.
  intros Hwf [e He]. unfold failure in He. unfold try_block, errorCount_after.
  destruct (outcome (net attempt)) as [e'|code text rt body|]; [| |done].
  - do 2 eexists. split; [done|]. done.
  - match goal with |- context [updateConnectionStatus ?c ?l ?s] =>
      pose proof (updateConnectionStatus_spec c l s) as (Hst & Hwf1 & _);
      destruct (updateConnectionStatus c l s) as [st1 r] end.
    simpl in Hst, Hwf1.
    assert (errorCount (status st1) + 1 = 1)%Z as Hec by (by rewrite Hst).
    destruct r as [|e1]; [|by do 2 eexists].
    destruct (ok code); [|by do 2 eexists].
    destruct body as [v|e1|]; [done| |done]. by do 2 eexists.
Qed.

Lemma attempts_errorCount cfg net url startTime N :
  retryAttempts cfg = N →
  ∀ n attempt st,
    (attempt + Z.of_nat n = N)%Z →
    well_formed st →
    (∀ i, (attempt ≤ i ≤ N)%Z → is_Some (failure (net i))) →
    errorCount (status (attempts cfg net url startTime (S n) attempt st).1)
    = foldl (λ c i, errorCount_after (net i) c) (errorCount (status st))
            (seqZ attempt (Z.of_nat (S n))).
Proof.
  intros HN. induction n as [|n IH]; intros attempt st Hsum Hwf Hfail.
  - assert (attempt = N) as -> by lia.
    destruct (try_block_raises net url startTime N st Hwf (Hfail N ltac:(lia)))
      as (st1 & e & Htry & Hwf1 & Hec).
    rewrite (seqZ_cons N) by lia. change (seqZ _ (Z.pred (Z.of_nat 1))) with (@nil Z).
    cbn [attempts foldl]. rewrite Htry. unfold catch_block. rewrite decide_True by done.
    destruct (increment_errorCount_spec st1 Hwf1) as (Hinc & _).
    match goal with |- context [updateConnectionStatus ?c ?l ?s] =>
      pose proof (updateConnectionStatus_spec c l s) as (Hst & _);
      destruct (updateConnectionStatus c l s) as [st2 r] end.
    simpl in Hst.
    assert (errorCount (status st2) = errorCount_after (net N) (errorCount (status st))) as <-.
    { rewrite Hst; simpl. by rewrite Hinc. }
    by destruct r.
  - destruct (try_block_raises net url startTime attempt st Hwf (Hfail attempt ltac:(lia)))
      as (st1 & e & Htry & Hwf1 & Hec).
    rewrite attempts_S, Htry. unfold catch_block. rewrite decide_False by lia.
    destruct (increment_errorCount_spec st1 Hwf1) as (Hinc & Hwf2 & _).
    rewrite IH; [|lia|done|intros; apply Hfail; lia].
    rewrite (seqZ_cons attempt (Z.of_nat (S (S n)))) by lia. cbn [foldl].
    replace (Z.pred (Z.of_nat (S (S n)))) with (Z.of_nat (S n)) by lia.
    replace (Z.succ attempt) with (attempt + 1)%Z by lia.
    f_equal. change (status (sleep _ ?s)) with (status s).
    by rewrite Hinc.
Qed.

(** C4, as the code has it: [errorCount] is incremented on every failed
    attempt, transport error or not; but it is set to 0 every time [fetch]
    resolves to a response, before the status code is looked at. So after k
    consecutive transport failures it has grown by k, while after a failed
    attempt that did get a response (a status outside 200-299, or a body
    that does not decode) it is exactly 1. *)
Theorem errorCount_after_failed_request cfg net endpoint st N :
  well_formed st → retryAttempts cfg = N → (0 ≤ N)%Z →
  (∀ i, (0 ≤ i ≤ N)%Z → is_Some (failure (net i))) →
  let final := errorCount (status (request cfg net endpoint st).1) in
  final = foldl (λ c i, errorCount_after (net i) c) (errorCount (status st)) (seqZ 0 (N + 1)) ∧
  ((∀ i, (0 ≤ i ≤ N)%Z → ∃ e, outcome (net i) = FetchRejects e) →
   final = (errorCount (status st) + (N + 1))%Z) ∧
  (∀ code text rt body, outcome (net N) = FetchResponds code text rt body → final = 1%Z) ∧
  (∀ url startTime attempt st0 code text rt body,
     outcome (net attempt) = FetchResponds code text rt body →
     errorCount (status (try_block net url startTime attempt st0).1) = 0%Z).
Proof.
  intros Hwf HN Hpos Hfail final.
  assert (final = foldl (λ c i, errorCount_after (net i) c) (errorCount (status st))
                        (seqZ 0 (N + 1))) as Hfinal.
  { unfold final, request.
    replace (Z.to_nat (retryAttempts cfg + 1)) with (S (Z.to_nat N)) by lia.
    rewrite (attempts_errorCount cfg net _ _ N HN); [|lia|done|done].
    do 2 f_equal. lia. }
  split; [done|]. rewrite Hfinal. clear final Hfinal. split; [|split].
  - intros Hrej. replace (N + 1)%Z with (Z.of_nat (Z.to_nat (N + 1))) by lia.
    assert (∀ i, (0 ≤ i < 0 + Z.of_nat (Z.to_nat (N + 1)))%Z →
                 ∃ e, outcome (net i) = FetchRejects e) as Hrej'
      by (intros; apply Hrej; lia).
    revert Hrej'. generalize (errorCount (status st)) (Z.to_nat (N + 1)) 0%Z. clear.
    intros c n. revert c. induction n as [|n IH]; intros c a Hrej.
    + simpl. lia.
    + rewrite seqZ_cons by lia. simpl.
      replace (Z.pred (Z.of_nat (S n))) with (Z.of_nat n) by lia.
      rewrite IH by (intros; apply Hrej; lia).
      destruct (Hrej a ltac:(lia)) as [e He]. unfold errorCount_after. rewrite He. lia.
  - intros code text rt body Hout.
    replace (N + 1)%Z with (Z.of_nat (S (Z.to_nat N))) by lia.
    rewrite seqZ_S, foldl_app. cbn [foldl].
    replace (0 + Z.of_nat (Z.to_nat N))%Z with N by lia.
    unfold errorCount_after at 1. by rewrite Hout.
  - intros url startTime attempt st0 code text rt body Hout. unfold try_block. rewrite Hout.
    match goal with |- context [updateConnectionStatus ?c ?l ?s] =>
      pose proof (updateConnectionStatus_spec c l s) as (Hst & _);
      destruct (updateConnectionStatus c l s) as [st1 r] end.
    simpl in Hst. assert (errorCount (status st1) = 0%Z) by (by rewrite Hst).
    destruct r; [|done]. destruct (ok code); [|done]. by destruct body.
Qed.

Lemma attempts_ignore_timeout cfg net url startTime t remaining :
  ∀ attempt st,
    attempts (with_timeout t cfg) net url startTime remaining attempt st
    = attempts cfg net url startTime remaining attempt st.
Proof.
  induction remaining as [|n IH]; intros attempt st; simpl; [done|].
  destruct (try_block _ _ _ _ _) as [st1 [r|e|]]; [done| |done].
  unfold catch_block; simpl. destruct (decide _); [done|]. apply IH.
Qed.

(** C3, as the code has it: [request] never reads [config.timeout]. Its
    result is the same whatever the timeout is, and an attempt lasts as long
    as the transport takes. An attempt whose [fetch] never settles leaves the
    request pending at that attempt, the first or a later one: after the
    call of [fetch] nothing happens, so no retry follows and neither
    [errorCount] nor the rest of the status changes. When no listener throws,
    a response that arrives late is accepted like any other: a first attempt
    answered with a status in 200-299 and a body that decodes makes the
    request succeed after that single attempt, however long it took. Only an
    attempt that the transport ends with a failure takes the retry path. *)
Theorem request_ignores_timeout cfg net endpoint st t :
  let url := baseUrl cfg +:+ endpoint in
  request (with_timeout t cfg) net endpoint st = request cfg net endpoint st ∧
  (∀ startTime remaining attempt st0,
     outcome (net attempt) = FetchPending →
     attempts cfg net url startTime (S remaining) attempt st0
     = (effect (IoFetch url) st0, Pending)) ∧
  (∀ k, (0 ≤ k ≤ retryAttempts cfg)%Z →
        (∀ i, (0 ≤ i < k)%Z → is_Some (failure (net i))) →
        outcome (net k) = FetchPending →
        (request cfg net endpoint st).2 = Pending ∧
        fetches (log (request cfg net endpoint st).1)
        = fetches (log st) + Z.to_nat (k + 1)) ∧
  ((0 ≤ retryAttempts cfg)%Z → quiet →
   ∀ code text rt v,
     outcome (net 0%Z) = FetchResponds code text rt (BodyJson v) → ok code = true →
     ∃ st', request cfg net endpoint st
            = (st', Resolved {| success := true; data := Some v; error := None;
                                timestamp := Some (toISOString (now st')) |}) ∧
            now st' = (now st + took (net 0%Z) + rt)%Z ∧
            fetches (log st') = fetches (log st) + 1).
Proof.
  intros url. split; [apply attempts_ignore_timeout|]. split; [|split].
  - intros startTime remaining attempt st0 Hout.
    rewrite attempts_S. unfold try_block. by rewrite Hout.
  - intros k Hk Hfail Hout. unfold request. fold url.
    replace (Z.to_nat (retryAttempts cfg + 1)) with (S (Z.to_nat (retryAttempts cfg))) by lia.
    destruct (attempts_pending_after cfg net url (now st) (retryAttempts cfg) k eq_refl
                ltac:(lia) Hout (Z.to_nat k) (Z.to_nat (retryAttempts cfg)) 0%Z st)
      as [Hres Htr]; [lia|lia|intros; apply Hfail; lia|].
    split; [done|].
    rewrite <- (fetches_transport (log _)), Htr, !fetches_app, fetches_transport.
    rewrite fetches_retries, length_seqZ. unfold fetches; simpl. lia.
  - intros Hpos Hq code text rt v Hout Hok. unfold request.
    destruct (Z.to_nat (retryAttempts cfg + 1)) as [|n] eqn:Hn; [lia|].
    simpl. unfold try_block. rewrite Hout.
    match goal with |- context [updateConnectionStatus ?c ?l ?s] =>
      pose proof (updateConnectionStatus_quiet c l s Hq) as Hnormal;
      pose proof (updateConnectionStatus_spec c l s) as (_ & _ & Hnow & _ & _ & _ & Hlog);
      destruct (updateConnectionStatus c l s) as [st1 r] end.
    simpl in Hnormal, Hnow, Hlog. subst r. rewrite Hok.
    eexists. split; [done|]. simpl. split; [lia|].
    rewrite <- (fetches_transport (log st1)), Hlog, transport_app, fetches_app,
      fetches_transport. done.
Qed.

End Requests.

(** An instance: the default configuration against an endpoint that
    answers 500 every time. *)
Lemma request_exhausts_retries_witness :
  let E := silent in
  let st' := (request defaultConfig failing "/api/v1/plants" (new_ApiClient 0)).1 in
  let url := baseUrl defaultConfig +:+ "/api/v1/plants" in
  fetches (log st') = fetches (log (new_ApiClient 0)) + Z.to_nat (3 + 1) ∧
  ((3 ≤ 1015)%Z →
   transport (log st') =
     transport (log (new_ApiClient 0))
     ++ (seqZ 0 3 ≫= λ i, [IoFetch url; IoSleep (1000 * 2 ^ i)%Z])
     ++ [IoFetch url] ∧
   delays (log st') = delays (log (new_ApiClient 0)) ++ ((λ i, 1000 * 2 ^ i)%Z <$> seqZ 0 3)) ∧
  (∀ i j, (0 ≤ i < j)%Z → (1000 * 2 ^ i < 1000 * 2 ^ j)%Z) ∧
  (quiet →
   ∃ e message,
     failure (failing 3%Z) = Some e ∧
     (request defaultConfig failing "/api/v1/plants" (new_ApiClient 0)).2
     = Resolved {| success := false; data := None; error := Some message;
                   timestamp := Some (toISOString (now st')) |} ∧
     match e with ThrownError m => message = m | ThrownOther => message = "Unknown error" end ∧
     match outcome (failing 3%Z) with
     | FetchRejects e' => e = e'
     | FetchResponds code text _ body =>
         if ok code then body = BodyFails e
         else e = ThrownError ("HTTP " +:+ pretty code +:+ ": " +:+ text)
     | FetchPending => False
     end ∧
     ((3 ≤ 22)%Z → now st' = (now (new_ApiClient 0) + waited failing 3 + spent (failing 3%Z))%Z)).
Proof.
  intros E.
  apply (request_exhausts_retries (E := E) defaultConfig failing "/api/v1/plants"
           (new_ApiClient 0) 3).
  - reflexivity.
  - lia.
  - intros i _. vm_compute. eauto.
Defined.

(** Scenario A of the specification: three retries, every attempt fails. *)
Lemma scenario_A :
  let E := silent in
  let r := request defaultConfig failing "/api/v1/plants" (new_ApiClient 0) in
  delays (log r.1) = [1000; 2000; 4000]%Z ∧
  fetches (log r.1) = 4 ∧
  (error <$> (match r.2 with Resolved a => Some a | _ => None end))
  = Some (Some "HTTP 500: Internal Server Error") ∧
  now r.1 = (4 * 20 + 1000 + 2000 + 4000)%Z.
Proof. by vm_compute. Qed.

(** C5 fails as stated when a listener of the status events throws: the
    attempts and the delays are the same, but the exception of the listener
    leaves the [catch] block of the last attempt, and the request rejects
    with it instead of returning a failure result. *)
Lemma listener_exception_replaces_failure_result :
  let E := example_env faulty in
  let r := request defaultConfig unreachable "/api/v1/plants" watched in
  fetches (log r.1) = 4 ∧
  delays (log r.1) = [1000; 2000; 4000]%Z ∧
  r.2 = Rejected (ThrownError "render failed") ∧
  ¬ returns_last_error defaultConfig unreachable "/api/v1/plants" watched.
Proof.
  intros E. repeat (split; [by vm_compute|]).
  intros H. unfold returns_last_error in H.
  destruct H as (e & r & _ & Hr & _); [intros i _; vm_compute; eauto|].
  vm_compute in Hr. discriminate.
Qed.

(** C4 fails as stated: four attempts that all meet a 500 response leave
    [errorCount] at 1, not at 4. *)
Lemma errorCount_is_reset_by_error_responses :
  let E := silent in
  errorCount (status (request defaultConfig failing "/api/v1/plants" (new_ApiClient 0)).1)
  = 1%Z ∧
  ¬ counts_every_failure defaultConfig failing "/api/v1/plants" (new_ApiClient 0).
Proof.
  split; [by vm_compute|].
  intros H. unfold counts_every_failure in H.
  assert (∀ i, (0 ≤ i ≤ retryAttempts defaultConfig)%Z → is_Some (failure (failing i))) as Hf
    by (intros i _; vm_compute; eauto).
  specialize (H Hf). vm_compute in H. discriminate.
Qed.

(** An instance: the default configuration against an endpoint that cannot
    be reached. *)
Lemma errorCount_after_failed_request_witness :
  let E := silent in
  let final := errorCount (status (request defaultConfig unreachable "/api/v1/plants"
                                           (new_ApiClient 0)).1) in
  final = foldl (λ c i, errorCount_after (unreachable i) c)
                (errorCount (status (new_ApiClient 0))) (seqZ 0 (3 + 1)) ∧
  ((∀ i, (0 ≤ i ≤ 3)%Z → ∃ e, outcome (unreachable i) = FetchRejects e) →
   final = (errorCount (status (new_ApiClient 0)) + (3 + 1))%Z) ∧
  (∀ code text rt body, outcome (unreachable 3%Z) = FetchResponds code text rt body →
                        final = 1%Z) ∧
  (∀ url startTime attempt st0 code text rt body,
     outcome (unreachable attempt) = FetchResponds code text rt body →
     errorCount (status (try_block unreachable url startTime attempt st0).1) = 0%Z).
Proof.
  intros E.
  apply (errorCount_after_failed_request (E := E) defaultConfig unreachable "/api/v1/plants"
           (new_ApiClient 0) 3).
  - vm_compute. lia.
  - reflexivity.
  - lia.
  - intros i _. vm_compute. eauto.
Defined.

(** C3 fails as stated: with the timeout at 10 seconds, a response that
    takes a minute is awaited to the end and accepted; the request succeeds
    after a single attempt. *)
Lemma slow_response_is_not_cut_off :
  let E := silent in
  let r := request defaultConfig slow "/api/v1/plants" (new_ApiClient 0) in
  timeout defaultConfig = 10000%Z ∧
  r.2 = Resolved {| success := true; data := Some (JArray []); error := None;
                    timestamp := Some "T60005" |} ∧
  fetches (log r.1) = 1 ∧
  latency (status r.1) = 60000%Z ∧
  errorCount (status r.1) = 0%Z ∧
  ¬ attempt_bounded_by_timeout defaultConfig slow "/api/v1/plants" (new_ApiClient 0).
Proof.
  repeat (split; [by vm_compute|]).
  intros H. unfold attempt_bounded_by_timeout in H.
  specialize (H ltac:(by vm_compute) _ ltac:(by vm_compute) ltac:(by vm_compute)).
  vm_compute in H. lia.
Qed.

Section Stream.
Context `{E : Env}.





(** C7, as the code has it: the guard of [connectWebSocket] tests for an
    open socket (and for a configured URL). While the current socket is
    open a call changes nothing, so two calls in a row leave the sockets as
    they were, in number and in state: a client that had one socket still has
    that one. A socket that is still connecting is not covered by the
    guard. *)
Theorem connect_is_noop_while_open cfg st s :
  ws st = Some s → sockets st !! s = Some OPEN →
  connectWebSocket cfg st = st ∧
  run cfg [Connect; Connect] st = st ∧
  sockets (run cfg [Connect; Connect] st) = sockets st ∧
  length (sockets (run cfg [Connect; Connect] st)) = length (sockets st) ∧
  live_sockets (run cfg [Connect; Connect] st) = live_sockets st.
Proof.
  intros Hws Hopen.
  assert (connectWebSocket cfg st = st) as Hc.
  { unfold connectWebSocket. rewrite Hws; simpl. rewrite Hopen.
    rewrite (bool_decide_eq_true_2 (Some OPEN = Some OPEN)) by done.
    by rewrite orb_true_r. }
  split; [done|]. unfold run; simpl. by rewrite !Hc.
Qed.

Lemma string_of_units_text s : string_of_units (text s) = Some s.
Proof.
  induction s as [|a s IH]; simpl; [done|].
  rewrite bool_decide_eq_true_2 by apply N_ascii_bounded.
  by rewrite IH, ascii_N_embedding.
Qed.


End Stream.


(** C7 fails as stated: a second call while the first socket is still
    connecting creates a second socket, and both are alive. Nor is one
    socket at a time the rule otherwise: a call right after
    [disconnectWebSocket] creates a socket while the old one is still
    closing. *)
Lemma second_connect_while_connecting :
  let E := silent in
  let st := run defaultConfig [Connect] (new_ApiClient 0) in
  let st' := run defaultConfig [Disconnect; Connect] streaming in
  sockets st = [CONNECTING] ∧ ws st = Some 0 ∧
  sockets (connectWebSocket defaultConfig st) = [CONNECTING; CONNECTING] ∧
  live_sockets (connectWebSocket defaultConfig st) = 2 ∧
  sockets st' = [CLOSING; CONNECTING] ∧ live_sockets st' = 2 ∧
  ¬ connect_is_idempotent defaultConfig st.
Proof.
  intros E st st'. repeat (split; [by vm_compute|]).
  intros H. unfold connect_is_idempotent in H.
  assert (connectWebSocket defaultConfig st = st) as Heq.
  { apply H. exists 0. split; [by vm_compute|]. left. by vm_compute. }
  apply (f_equal sockets) in Heq. vm_compute in Heq. discriminate.
Qed.

(** An instance: the client whose socket has opened. *)
Lemma connect_is_noop_while_open_witness :
  let E := silent in
  sockets streaming = [OPEN] ∧
  connectWebSocket defaultConfig streaming = streaming ∧
  run defaultConfig [Connect; Connect] streaming = streaming ∧
  sockets (run defaultConfig [Connect; Connect] streaming) = [OPEN] ∧
  length (sockets (run defaultConfig [Connect; Connect] streaming)) = 1 ∧
  live_sockets (run defaultConfig [Connect; Connect] streaming) = 1.
Proof.
  intros E. split; [by vm_compute|].
  assert (ws streaming = Some 0) as Hws by (by vm_compute).
  assert (sockets streaming !! 0 = Some OPEN) as Hopen by (by vm_compute).
  destruct (connect_is_noop_while_open (E := E) defaultConfig streaming 0 Hws Hopen)
    as (Hnoop & Hrun & Hsockets & Hlength & Hlive).
  split; [exact Hnoop|]. split; [exact Hrun|].
  split; [exact Hsockets|]. split; [exact Hlength|exact Hlive].
Defined.


(** Scenario B of the specification: the frame [{], then a telemetry
    envelope. *)
Lemma scenario_B :
  let E := silent in
  let st := run defaultConfig [SocketMessage 0 "{"; SocketMessage 0 envelope] streaming in
  calls (log st)
  = [(5, "telemetry",
      PData (Some (JObject [(text "id", JString (text "plant-1"));
                            (text "power", JNumber 42 (-1))])))] ∧
  sockets st = [OPEN] ∧
  omap (λ e, match e with IoUncaught x => Some x | _ => None end) (log st) = [].
Proof. by vm_compute. Qed.

Section Hook.
Context `{E : Env}.

(** C9: when the fetch of the telemetry hook comes to a failure, the hook
    sets [error], to the message of the result or else to its fixed text, and
    leaves [data] and [lastUpdated] as they were; the two are replaced only by
    a result that is a success and carries data. *)
Theorem failed_fetch_keeps_data cfg net plantId enabled st h :
  nonempty plantId = true → enabled = true →
  let r := (getPlantTelemetry cfg net (default "" plantId) st).2 in
  let h' := (fetchData cfg net plantId enabled st h).2 in
  (∀ response, r = Resolved response → success response = false →
     h_error h' = Some (or_else (error response) "Failed to fetch plant data") ∧
     h_data h' = h_data h ∧ h_lastUpdated h' = h_lastUpdated h ∧ h_loading h' = false) ∧
  (∀ e, r = Rejected e →
     h_error h' = Some (error_message e) ∧
     h_data h' = h_data h ∧ h_lastUpdated h' = h_lastUpdated h ∧ h_loading h' = false) ∧
  (h_data h' ≠ h_data h ∨ h_lastUpdated h' ≠ h_lastUpdated h →
   ∃ response, r = Resolved response ∧ success response = true ∧
               from_option truthy false (data response) = true).
Proof.
  intros Hid Hen r h'. unfold h', r, fetchData. rewrite Hid, Hen; simpl.
  destruct (getPlantTelemetry cfg net (default "" plantId) st) as [st' [response|e|]]; simpl.
  - split; [|split].
    + intros ? [= <-] Hs. by rewrite Hs.
    + intros ? [=].
    + destruct (success response && from_option truthy false (data response)) eqn:Hok; simpl.
      * apply andb_true_iff in Hok as [??]. intros _. by exists response.
      * intros [?|?]; done.
  - split; [|split].
    + intros ? [=].
    + by intros ? [= <-].
    + intros [?|?]; done.
  - split; [|split]; [intros ? [=]|intros ? [=]|]. intros [?|?]; done.
Qed.

End Hook.

(** An instance: a hook that holds data, and a fetch that meets 500 every
    time. *)
Lemma failed_fetch_keeps_data_witness :
  let E := silent in
  let r := (getPlantTelemetry defaultConfig failing (default "" (Some "plant-1"))
                              (new_ApiClient 0)).2 in
  let h' := (fetchData defaultConfig failing (Some "plant-1") true (new_ApiClient 0) loaded).2 in
  (∀ response, r = Resolved response → success response = false →
     h_error h' = Some (or_else (error response) "Failed to fetch plant data") ∧
     h_data h' = h_data loaded ∧ h_lastUpdated h' = h_lastUpdated loaded ∧
     h_loading h' = false) ∧
  (∀ e, r = Rejected e →
     h_error h' = Some (error_message e) ∧
     h_data h' = h_data loaded ∧ h_lastUpdated h' = h_lastUpdated loaded ∧
     h_loading h' = false) ∧
  (h_data h' ≠ h_data loaded ∨ h_lastUpdated h' ≠ h_lastUpdated loaded →
   ∃ response, r = Resolved response ∧ success response = true ∧
               from_option truthy false (data response) = true).
Proof.
  intros E.
  apply (failed_fetch_keeps_data (E := E) defaultConfig failing (Some "plant-1") true
           (new_ApiClient 0) loaded).
  - by vm_compute.
  - reflexivity.
Defined.

(** The hook after the failed fetch. *)
Lemma failed_fetch_example :
  let E := silent in
  (fetchData defaultConfig failing (Some "plant-1") true (new_ApiClient 0) loaded).2
  = {| h_data := h_data loaded; h_loading := false;
       h_error := Some "HTTP 500: Internal Server Error";
       h_lastUpdated := h_lastUpdated loaded |}.
Proof. by vm_compute. Qed.

Section Copy.
Context `{E : Env}.

(** The registry and the stream manager never look at the heap. *)
Lemma off_set_heap h event c st : off event c (set_heap h st) = set_heap h (off event c st).
Proof.
  unfold off; simpl. destruct (listeners st !! event) as [l|]; [|done].
  by destruct (indexOf c l).
Qed.

Lemma run_body_set_heap h acts st :
  run_body acts (set_heap h st) = on_state (set_heap h) (run_body acts st).
Proof.
  revert st. induction acts as [|[ev c|ev c|e] acts IH]; intros st; simpl; [done| | |done].
  - apply (IH (on ev c st)).
  - rewrite off_set_heap. apply IH.
Qed.

Lemma forEach_set_heap h remaining k event arg st :
  forEach remaining k event arg (set_heap h st)
  = on_state (set_heap h) (forEach remaining k event arg st).
Proof.
  revert k st. induction remaining as [|n IH]; intros k st; simpl; [done|].
  destruct (listeners st !! event ≫= _) as [c|]; [|apply IH].
  unfold call.
  change (effect ?e (set_heap h st)) with (set_heap h (effect e st)).
  rewrite run_body_set_heap. destruct (run_body _ _) as [st1 [|e]]; simpl; [apply IH|done].
Qed.

Lemma emit_set_heap h event arg st :
  emit event arg (set_heap h st) = on_state (set_heap h) (emit event arg st).
Proof.
  unfold emit; simpl. destruct (listeners st !! event); [apply forEach_set_heap|done].
Qed.

Lemma connectWebSocket_set_heap h cfg st :
  connectWebSocket cfg (set_heap h st) = set_heap h (connectWebSocket cfg st).
Proof.
  unfold connectWebSocket; simpl. destruct (negb _ || _); [done|].
  by destruct (url_accepted _).
Qed.

Lemma step_set_heap h cfg st ev :
  step cfg (set_heap h st) ev = set_heap h (step cfg st ev).
Proof.
  destruct ev as [| |s|s frame|s|s|ms]; simpl.
  - apply connectWebSocket_set_heap.
  - unfold disconnectWebSocket, close; simpl. destruct (ws st) as [s|]; [|done]; simpl.
    by destruct (sockets st !! s) as [[]|].
  - destruct (sockets st !! s) as [[]|]; try done. unfold ws_onopen.
    change (effect ?e (set_readyState ?a ?b (set_heap h st)))
      with (set_heap h (effect e (set_readyState a b st))).
    rewrite emit_set_heap. by destruct (emit _ _ _) as [st1 [|e]].
  - destruct (sockets st !! s) as [[]|]; try done. unfold ws_onmessage.
    destruct (JSON_parse frame) as [message|]; [|done]. unfold emit_message.
    destruct (property "type" message) as [e|type]; [done|].
    destruct (property "data" message) as [e|data]; [done|].
    destruct type as [[]|]; try done.
    destruct (string_of_units s0) as [event|]; [|done].
    rewrite emit_set_heap. by destruct (emit _ _ _) as [st1 [|e]].
  - destruct (sockets st !! s) as [[]|]; try done; unfold ws_onerror;
      change (effect ?e (set_heap h st)) with (set_heap h (effect e st));
      rewrite emit_set_heap; by destruct (emit _ _ _) as [st1 [|e]].
  - destruct (sockets st !! s) as [[]|]; try done; unfold ws_onclose;
      change (effect ?e (set_readyState ?a ?b (set_heap h st)))
        with (set_heap h (effect e (set_readyState a b st)));
      rewrite emit_set_heap; by destruct (emit _ _ _) as [st1 [|e]].
  - unfold run_timers; simpl.
    generalize (filter (λ t, (t ≤ now st + ms)%Z) (timers st)).
    change (set_timers ?t (advance ms (set_heap h st)))
      with (set_heap h (set_timers t (advance ms st))).
    generalize (set_timers (filter (λ t, ¬ (t ≤ now st + ms)%Z) (timers st)) (advance ms st)).
    intros st0 due. revert st0. induction due as [|t due IH]; intros st0; simpl; [done|].
    rewrite connectWebSocket_set_heap. apply IH.
Qed.

Lemma set_heap_id st : set_heap (heap st) st = st.
Proof. by destruct st. Qed.

Lemma emit_connectionStatus event arg st :
  connectionStatus (emit event arg st).1 = connectionStatus st.
Proof. destruct (emit_rest event arg st) as [Hrest _]. by injection Hrest. Qed.

Lemma step_heap cfg st ev :
  heap (step cfg st ev) = heap st ∧ connectionStatus (step cfg st ev) = connectionStatus st.
Proof.
  split.
  - rewrite <- (set_heap_id st) at 1. by rewrite step_set_heap.
  - destruct ev as [| |s|s frame|s|s|ms]; simpl.
    + unfold connectWebSocket. destruct (negb _ || _); [done|]. by destruct (url_accepted _).
    + unfold disconnectWebSocket, close. destruct (ws st) as [s|]; [|done]; simpl.
      by destruct (sockets st !! s) as [[]|].
    + destruct (sockets st !! s) as [[]|]; try done. unfold ws_onopen.
      by case_emit emit_connectionStatus.
    + destruct (sockets st !! s) as [[]|]; try done. unfold ws_onmessage.
      destruct (JSON_parse frame) as [message|]; [|done]. unfold emit_message.
      destruct (property "type" message) as [e|type]; [done|].
      destruct (property "data" message) as [e|data]; [done|].
      destruct type as [[]|]; try done.
      destruct (string_of_units s0) as [event|]; [|done].
      by case_emit emit_connectionStatus.
    + destruct (sockets st !! s) as [[]|]; try done; unfold ws_onerror;
        by case_emit emit_connectionStatus.
    + destruct (sockets st !! s) as [[]|]; try done; unfold ws_onclose;
        by case_emit emit_connectionStatus.
    + unfold run_timers.
      generalize (filter (λ t, (t ≤ now (advance ms st))%Z) (timers (advance ms st))).
      change (connectionStatus st)
        with (connectionStatus (set_timers (filter (λ t, ¬ (t ≤ now (advance ms st))%Z)
                                              (timers (advance ms st))) (advance ms st))).
      generalize (set_timers (filter (λ t, ¬ (t ≤ now (advance ms st))%Z)
                                (timers (advance ms st))) (advance ms st)).
      intros st0 due. revert st0. induction due as [|t due IH]; intros st0; simpl; [done|].
      rewrite IH. unfold connectWebSocket. destruct (negb _ || _); [done|].
      by destruct (url_accepted _).
Qed.

Lemma status_touch r f st : connectionStatus st ≠ r → status (touch r f st) = status st.
Proof. intros Hne. unfold status; simpl. by rewrite list_lookup_alter_ne. Qed.

Lemma emit_touch r f event arg st :
  emit event arg (touch r f st) = on_state (touch r f) (emit event arg st).
Proof.
  unfold touch at 1. rewrite emit_set_heap. unfold on_state, touch; simpl.
  destruct (emit_rest event arg st) as [Hrest _]. injection Hrest as _ _ Hh _ _ _.
  by rewrite Hh.
Qed.

Lemma emit_apart r event arg st : apart r st → apart r (emit event arg st).1.
Proof.
  unfold apart. destruct (emit_rest event arg st) as [Hrest _].
  injection Hrest as Hc _ Hh _ _ _. by rewrite Hc, Hh.
Qed.

Lemma updateConnectionStatus_touch r f connected' latency' st :
  apart r st →
  updateConnectionStatus connected' latency' (touch r f st)
  = on_state (touch r f) (updateConnectionStatus connected' latency' st) ∧
  apart r (updateConnectionStatus connected' latency' st).1.
Proof.
  intros [Hlt Hne]. unfold updateConnectionStatus, alloc.
  rewrite (status_touch r f st Hne). split.
  - rewrite <- emit_touch. unfold touch; simpl.
    by rewrite length_alter, alter_app_l.
  - apply emit_apart. unfold apart; simpl. rewrite length_app; simpl. lia.
Qed.

Lemma increment_errorCount_touch r f st :
  apart r st →
  increment_errorCount (touch r f st) = touch r f (increment_errorCount st) ∧
  apart r (increment_errorCount st).
Proof.
  intros [Hlt Hne]. unfold increment_errorCount, touch, apart; simpl. split.
  - by rewrite list_alter_alter_ne.
  - by rewrite length_alter.
Qed.

Lemma try_block_touch r f net url startTime attempt st :
  apart r st →
  try_block net url startTime attempt (touch r f st)
  = on_state (touch r f) (try_block net url startTime attempt st) ∧
  apart r (try_block net url startTime attempt st).1.
Proof.
  intros Hap. unfold try_block.
  destruct (outcome (net attempt)) as [e|code text rt body|];
    [split; [done|exact Hap]| |split; [done|exact Hap]].
  cbv zeta. set (st0 := advance (took (net attempt)) (effect (IoFetch url) st)).
  change (advance (took (net attempt)) (effect (IoFetch url) (touch r f st)))
    with (touch r f st0).
  change (now (touch r f st0)) with (now st0).
  destruct (updateConnectionStatus_touch r f true (Some (now st0 - startTime)%Z) st0)
    as [-> Hap1]; [exact Hap|].
  destruct (updateConnectionStatus true _ st0) as [st1 [|e]]; simpl in *; [|by split].
  destruct (ok code); [|by split]. by destruct body; split.
Qed.

Lemma catch_block_touch r f cfg attempt next e st :
  (∀ st0, apart r st0 →
          next (touch r f st0) = on_state (touch r f) (next st0) ∧ apart r (next st0).1) →
  apart r st →
  catch_block cfg attempt next e (touch r f st)
  = on_state (touch r f) (catch_block cfg attempt next e st) ∧
  apart r (catch_block cfg attempt next e st).1.
Proof.
  intros Hnext Hap. unfold catch_block.
  destruct (increment_errorCount_touch r f st Hap) as [-> Hap1].
  destruct (decide (attempt = retryAttempts cfg)).
  - destruct (updateConnectionStatus_touch r f false None (increment_errorCount st) Hap1)
      as [-> Hap2].
    by destruct (updateConnectionStatus _ _ _) as [st2 [|e']].
  - change (sleep ?ms (touch r f ?s)) with (touch r f (sleep ms s)).
    by apply Hnext.
Qed.

Lemma attempts_touch r f cfg net url startTime remaining :
  ∀ attempt st,
    apart r st →
    attempts cfg net url startTime remaining attempt (touch r f st)
    = on_state (touch r f) (attempts cfg net url startTime remaining attempt st) ∧
    apart r (attempts cfg net url startTime remaining attempt st).1.
Proof.
  induction remaining as [|n IH]; intros attempt st Hap; [done|].
  rewrite !attempts_S.
  destruct (try_block_touch r f net url startTime attempt st Hap) as [-> Hap1].
  destruct (try_block net url startTime attempt st) as [st1 [res|e|]]; simpl in *;
    [done| |done].
  apply catch_block_touch; [|done]. intros st0 Hap0. by apply IH.
Qed.

(** Each operation goes the same way whatever is written to an object that
    is not the client's own, and leaves that object apart. *)
Lemma perform_touch r f cfg st op :
  apart r st →
  perform cfg (touch r f st) op = touch r f (perform cfg st op) ∧
  apart r (perform cfg st op).
Proof.
  intros Hap. destruct op as [ev c|ev c|net endpoint| |ev]; simpl.
  - done.
  - unfold touch at 1. rewrite off_set_heap. unfold touch, apart.
    destruct (off_rest ev c st) as [[= -> _ -> _ _ _] _]. done.
  - unfold request.
    destruct (attempts_touch r f cfg net (baseUrl cfg +:+ endpoint) (now st)
                (Z.to_nat (retryAttempts cfg + 1)) 0%Z st Hap) as [Heq Hap1].
    change (now (touch r f st)) with (now st). by rewrite Heq.
  - destruct Hap as [Hlt Hne]. unfold getConnectionStatus, alloc.
    rewrite (status_touch r f st Hne). unfold touch, apart; simpl.
    rewrite alter_app_l, length_app by done. split; [done|]. simpl; lia.
  - unfold touch at 1. rewrite step_set_heap. unfold touch, apart.
    destruct (step_heap cfg st ev) as [-> ->]. done.
Qed.

Lemma perform_all_touch r f cfg ops :
  ∀ st, apart r st →
    foldl (perform cfg) (touch r f st) ops = touch r f (foldl (perform cfg) st ops) ∧
    apart r (foldl (perform cfg) st ops).
Proof.
  induction ops as [|op ops IH]; intros st Hap; simpl; [done|].
  destruct (perform_touch r f cfg st op Hap) as [-> Hap1]. by apply IH.
Qed.

Lemma touch_id r st : touch r id st = st.
Proof. unfold touch. rewrite list_alter_id by done. by destruct st. Qed.

Lemma touch_touch r f g st : touch r f (touch r g st) = touch r (f ∘ g) st.
Proof. unfold touch; simpl. by rewrite list_alter_alter_eq. Qed.

(** However the caller's assignments are spread among the operations, the
    state is the one the operations alone lead to, but for the record at
    [r]. *)
Lemma play_touch r cfg moves :
  ∀ st, apart r st →
    ∃ f, play cfg r st moves = touch r f (foldl (perform cfg) st (operations moves)) ∧
         apart r (foldl (perform cfg) st (operations moves)).
Proof.
  induction moves as [|[w|op] moves IH]; intros st Hap.
  - exists id. by rewrite touch_id.
  - destruct (IH (touch r (write_field w) st)) as (f & Hplay & Hap').
    { destruct Hap as [Hlt Hne]. unfold apart, touch; simpl. by rewrite length_alter. }
    destruct (perform_all_touch r (write_field w) cfg (operations moves) st Hap) as [Heq Hap1].
    exists (f ∘ write_field w). split; [|done].
    unfold play in *; simpl. by rewrite Hplay, Heq, touch_touch.
  - destruct (perform_touch r id cfg st op Hap) as [_ Hap1].
    destruct (IH (perform cfg st op) Hap1) as (f & Hplay & Hap').
    exists f. by split.
Qed.

(** The client's status reference is valid in every state the client can
    be in. *)
Lemma try_block_well_formed net url startTime attempt st :
  well_formed st → well_formed (try_block net url startTime attempt st).1.
Proof.
  intros Hwf. unfold try_block.
  destruct (outcome (net attempt)) as [e|code text rt body|]; [done| |done].
  cbv zeta.
  match goal with |- context [updateConnectionStatus ?c ?l ?s] =>
    pose proof (updateConnectionStatus_spec c l s) as (_ & Hwf1 & _);
    destruct (updateConnectionStatus c l s) as [st1 [|e]] end; simpl in *; [|done].
  destruct (ok code); [|done]. by destruct body.
Qed.

Lemma attempts_well_formed cfg net url startTime remaining :
  ∀ attempt st,
    well_formed st → well_formed (attempts cfg net url startTime remaining attempt st).1.
Proof.
  induction remaining as [|n IH]; intros attempt st Hwf; [done|].
  rewrite attempts_S.
  pose proof (try_block_well_formed net url startTime attempt st Hwf) as Hwf1.
  destruct (try_block net url startTime attempt st) as [st1 [res|e|]]; simpl in *;
    [done| |done].
  unfold catch_block.
  destruct (increment_errorCount_spec st1 Hwf1) as (_ & Hwf2 & _).
  destruct (decide (attempt = retryAttempts cfg)).
  - match goal with |- context [updateConnectionStatus ?c ?l ?s] =>
      pose proof (updateConnectionStatus_spec c l s) as (_ & Hwf3 & _);
      by destruct (updateConnectionStatus c l s) as [st3 [|e']] end.
  - by apply IH.
Qed.

Lemma perform_well_formed cfg st op : well_formed st → well_formed (perform cfg st op).
Proof.
  unfold well_formed. intros Hwf. destruct op as [ev c|ev c|net endpoint| |ev]; simpl.
  - done.
  - by destruct (off_rest ev c st) as [[= -> _ -> _ _ _] _].
  - by apply attempts_well_formed.
  - rewrite length_app; simpl. lia.
  - by destruct (step_heap cfg st ev) as [-> ->].
Qed.

Lemma reachable_well_formed cfg t0 ops :
  well_formed (foldl (perform cfg) (new_ApiClient t0) ops).
Proof.
  assert (well_formed (new_ApiClient t0)) as Hwf by (unfold well_formed; simpl; lia).
  revert Hwf. generalize (new_ApiClient t0). induction ops as [|op ops IH]; intros st Hwf.
  - done.
  - simpl. apply IH. by apply perform_well_formed.
Qed.

(** C10: [getConnectionStatus] hands out a new record with the field values
    of the client's own. Whatever the caller assigns to the fields of that
    record, and whenever, the client's status is what the operations done
    with the client make it: it is never changed by the assignments, and a
    later [getConnectionStatus] shows the client's status, not the caller's
    changes. *)
Theorem getConnectionStatus_returns_copy cfg st moves :
  well_formed st →
  let r := (getConnectionStatus st).1 in
  let st1 := (getConnectionStatus st).2 in
  let after := play cfg r st1 moves in
  let untouched := foldl (perform cfg) st1 (operations moves) in
  heap st1 !! r = Some (status st) ∧
  r ≠ connectionStatus st1 ∧
  status st1 = status st ∧
  status after = status untouched ∧
  heap (getConnectionStatus after).2 !! (getConnectionStatus after).1
  = Some (status untouched).
Proof.
  intros Hwf r st1 after untouched. unfold well_formed in Hwf.
  assert (apart r st1) as Hap.
  { unfold apart, r, st1, getConnectionStatus, alloc; simpl. rewrite length_app; simpl. lia. }
  destruct (play_touch r cfg moves st1 Hap) as (f & Hafter & [_ Hne]).
  fold after untouched in Hafter, Hne.
  split; [|split; [|split; [|split]]].
  - unfold r, st1, getConnectionStatus, alloc; simpl. by rewrite list_lookup_middle.
  - destruct Hap as [_ ?]. done.
  - unfold st1, getConnectionStatus, alloc, status; simpl. by rewrite lookup_app_l.
  - rewrite Hafter. by apply status_touch.
  - unfold getConnectionStatus, alloc; simpl. rewrite list_lookup_middle by done.
    rewrite Hafter. by rewrite status_touch.
Qed.

End Copy.

(** An instance: after a failed request, a caller takes the status, resets
    its [errorCount] and sets [connected] while the client goes on. *)
Lemma getConnectionStatus_returns_copy_witness :
  let E := silent in
  let st := (request defaultConfig unreachable "/api/v1/plants" (new_ApiClient 0)).1 in
  let moves := [Assign (SetErrorCount 0);
                Perform (OpRequest failing "/api/v1/system/health");
                Assign (SetConnected true);
                Perform OpGetConnectionStatus] in
  let r := (getConnectionStatus st).1 in
  let st1 := (getConnectionStatus st).2 in
  let after := play defaultConfig r st1 moves in
  let untouched := foldl (perform defaultConfig) st1 (operations moves) in
  heap st1 !! r = Some (status st) ∧
  r ≠ connectionStatus st1 ∧
  status st1 = status st ∧
  status after = status untouched ∧
  heap (getConnectionStatus after).2 !! (getConnectionStatus after).1
  = Some (status untouched).
Proof.
  intros E st moves.
  apply (getConnectionStatus_returns_copy (E := E) defaultConfig st moves).
  vm_compute. lia.
Defined.

(** The caller sees its own changes on its copy; the client does not. *)
Lemma copy_example :
  let E := silent in
  let st := (request defaultConfig unreachable "/api/v1/plants" (new_ApiClient 0)).1 in
  let '(r, st1) := getConnectionStatus st in
  let st2 := mutate r [SetErrorCount 0; SetConnected true] st1 in
  errorCount (status st) = 4%Z ∧
  (errorCount <$> heap st2 !! r) = Some 0%Z ∧
  errorCount (status st2) = 4%Z ∧ connected (status st2) = false.
Proof. by vm_compute. Qed.

(** * Further properties of the code *)

Section RegistryMore.
Context `{E : Env}.

Lemma indexOf_None c (l : list nat) : c ∉ l → indexOf c l = None.
Proof.
  induction l as [|x l IH]; intros Hc; simpl; [done|].
  rewrite decide_False by (intros ->; apply Hc; left).
  rewrite IH; [done|]. intros ?. apply Hc. by right.
Qed.

Lemma indexOf_first c (l1 l2 : list nat) :
  c ∉ l1 → indexOf c (l1 ++ c :: l2) = Some (length l1).
Proof.
  induction l1 as [|x l1 IH]; intros Hc; simpl.
  - by rewrite decide_True.
  - rewrite decide_False by (intros ->; apply Hc; left).
    rewrite IH; [done|]. intros ?. apply Hc. by right.
Qed.

Lemma indexOf_Some c (l : list nat) i :
  indexOf c l = Some i → l !! i = Some c.
Proof.
  revert i. induction l as [|x l IH]; intros i; simpl; [done|].
  destruct (decide (x = c)) as [->|Hne].
  - by intros [= <-].
  - destruct (indexOf c l) as [j|]; simpl; [|done]. intros [= <-]. by apply IH.
Qed.

Lemma indexOf_elem c (l : list nat) : c ∈ l → is_Some (indexOf c l).
Proof.
  induction l as [|x l IH]; intros Hc; simpl; [by apply elem_of_nil in Hc|].
  destruct (decide (x = c)); [eauto|].
  apply elem_of_cons in Hc as [->|Hc]; [done|].
  destruct (IH Hc) as [i ->]. simpl. eauto.
Qed.

(** [off] for a callback that is not registered for the event, or for an
    event nobody ever registered for, changes nothing and does not throw. *)
Theorem off_unregistered_is_noop event c st :
  (∀ l, listeners st !! event = Some l → c ∉ l) →
  off event c st = st.
Proof.
  intros Hc. unfold off. destruct (listeners st !! event) as [l|] eqn:Hl; [|done].
  by rewrite (indexOf_None c l (Hc l eq_refl)).
Qed.

(** [off] takes out the earliest registration of the callback and only
    that one: the callbacks before and after it keep their order, a second
    registration of the same callback stays, and the lists of the other
    events are as they were. *)
Theorem off_removes_first_registration event c st l1 l2 :
  listeners st !! event = Some (l1 ++ c :: l2) → c ∉ l1 →
  listeners (off event c st) !! event = Some (l1 ++ l2) ∧
  (∀ event', event' ≠ event → listeners (off event c st) !! event' = listeners st !! event') ∧
  rest_of (off event c st) = rest_of st ∧ log (off event c st) = log st.
Proof.
  intros Hl Hc. split; [|split].
  - unfold off. rewrite Hl, (indexOf_first c l1 l2 Hc). simpl.
    by rewrite lookup_insert_eq, delete_middle.
  - intros event' Hne. by apply off_lookup_ne.
  - apply off_rest.
Qed.

(** Registering a callback and unregistering it again leaves the list of the
    event as long as it was, and the same list when the callback was not in
    it before; the other events are not touched. (An event that had no list
    has an empty one afterwards.) *)
Theorem on_then_off_restores event c st :
  let before := default [] (listeners st !! event) in
  let st' := off event c (on event c st) in
  length (default [] (listeners st' !! event)) = length before ∧
  (c ∉ before → listeners st' !! event = Some before) ∧
  (∀ event', event' ≠ event → listeners st' !! event' = listeners st !! event') ∧
  rest_of st' = rest_of st ∧ log st' = log st.
Proof.
  intros before st'.
  assert (listeners (on event c st) !! event = Some (before ++ [c])) as Hon.
  { rewrite on_lookup. by rewrite decide_True. }
  split; [|split; [|split]].
  - unfold st', off. rewrite Hon.
    destruct (indexOf c (before ++ [c])) as [i|] eqn:Hi; simpl.
    + rewrite lookup_insert_eq; simpl. apply indexOf_Some in Hi.
      rewrite length_delete by eauto. rewrite length_app; simpl. lia.
    + destruct (indexOf_elem c (before ++ [c])) as [j Hj]; [|congruence].
      apply elem_of_app. right. apply list_elem_of_singleton. done.
  - intros Hnin. unfold st', off. rewrite Hon, (indexOf_first c before [] Hnin). simpl.
    rewrite lookup_insert_eq. by rewrite delete_middle, app_nil_r.
  - intros event' Hne. unfold st'. rewrite off_lookup_ne by done.
    rewrite on_lookup. by rewrite decide_False.
  - unfold st'. destruct (off_rest event c (on event c st)) as [-> ->]. apply on_rest.
Qed.

(** A callback registered twice for an event is called twice by each
    [emit], at the two places of its registrations; one [off] takes it back
    to one registration. *)
Theorem registering_twice_delivers_twice event c arg st :
  let before := default [] (listeners st !! event) in
  let st2 := on event c (on event c st) in
  Forall (λ x, tame event (listener_body x arg) = true) (before ++ [c]) →
  listeners st2 !! event = Some (before ++ [c; c]) ∧
  calls (log (emit event arg st2).1)
  = calls (log st) ++ ((λ x, (x, event, arg)) <$> (before ++ [c; c])) ∧
  (c ∉ before → listeners (off event c st2) !! event = Some (before ++ [c])).
Proof.
  intros before st2 Htame.
  assert (listeners st2 !! event = Some (before ++ [c; c])) as Hl.
  { unfold st2. rewrite on_lookup, decide_True by done.
    rewrite on_lookup, decide_True by done. simpl. by rewrite <- app_assoc. }
  split; [done|]. split.
  - destruct (emit_tame event arg st2 (before ++ [c; c]) Hl) as (st' & added & -> & _ & _ & Hlog).
    { apply Forall_app in Htame as [Hb Hc]. apply Forall_app. split; [done|].
      inversion Hc; subst. by repeat constructor. }
    simpl. by rewrite Hlog, calls_app, calls_IoCall.
  - intros Hnin. unfold off. rewrite Hl.
    change (before ++ [c; c]) with (before ++ c :: [c]).
    rewrite (indexOf_first c before [c] Hnin); simpl.
    by rewrite lookup_insert_eq, delete_middle.
Qed.

Lemma forEach_log remaining k event arg st :
  ∃ cs, log (forEach remaining k event arg st).1
        = log st ++ ((λ c, IoCall c event arg) <$> cs) ∧
        (length cs ≤ remaining)%nat.
Proof.
  revert k st. induction remaining as [|n IH]; intros k st; simpl.
  - exists []. by rewrite app_nil_r.
  - destruct (listeners st !! event ≫= _) as [c|].
    + unfold call. destruct (run_body _ _) as [st1 r] eqn:Hrun.
      pose proof (run_body_rest (listener_body c arg) (effect (IoCall c event arg) st)) as [_ Hlog].
      rewrite Hrun in Hlog; simpl in Hlog.
      destruct r; simpl.
      * destruct (IH (S k) st1) as (cs & -> & Hlen). exists (c :: cs).
        rewrite Hlog. simpl. rewrite <- app_assoc. split; [done|lia].
      * exists [c]. split; [done|simpl; lia].
    + destruct (IH (S k) st) as (cs & -> & Hlen). exists cs. split; [done|lia].
Qed.

(** One [emit] calls at most as many callbacks as the event had listeners
    when it started, each with the event's payload: [forEach] reads the
    length of the array once, so the dispatch ends even when every callback
    called registers another listener of the event, and a callback that
    unregisters or throws can only make the calls fewer. *)
Theorem emit_calls_at_most_initial_length event arg st :
  ∃ cs, calls (log (emit event arg st).1)
        = calls (log st) ++ ((λ c, (c, event, arg)) <$> cs) ∧
        (length cs ≤ length (default [] (listeners st !! event)))%nat.
Proof.
  unfold emit. destruct (listeners st !! event) as [l|]; simpl.
  - destruct (forEach_log (length l) 0 event arg st) as (cs & Hlog & Hlen).
    exists cs. by rewrite Hlog, calls_app, calls_IoCall.
  - exists []. by rewrite app_nil_r.
Qed.

End RegistryMore.

(** An instance: nobody has registered for [alert]. *)
Lemma off_unregistered_is_noop_witness :
  let E := silent in off "alert" 5 three_listeners = three_listeners.
Proof.
  intros E. apply (off_unregistered_is_noop "alert" 5 three_listeners).
  intros l Hl. vm_compute in Hl. discriminate.
Defined.

(** An instance: the second of three listeners is unregistered. *)
Lemma off_removes_first_registration_witness :
  let E := silent in
  listeners (off "telemetry" 1 three_listeners) !! "telemetry" = Some ([0] ++ [2]) ∧
  (∀ event', event' ≠ "telemetry" →
     listeners (off "telemetry" 1 three_listeners) !! event'
     = listeners three_listeners !! event') ∧
  rest_of (off "telemetry" 1 three_listeners) = rest_of three_listeners ∧
  log (off "telemetry" 1 three_listeners) = log three_listeners.
Proof.
  intros E.
  apply (off_removes_first_registration "telemetry" 1 three_listeners [0] [2]).
  - by vm_compute.
  - intros H. apply list_elem_of_singleton in H. discriminate.
Defined.

(** An instance: a listener registered twice behind the three. *)
Lemma registering_twice_delivers_twice_witness :
  let E := silent in
  let before := default [] (listeners three_listeners !! "telemetry") in
  let st2 := on "telemetry" 9 (on "telemetry" 9 three_listeners) in
  listeners st2 !! "telemetry" = Some (before ++ [9; 9]) ∧
  calls (log (emit "telemetry" PTrue st2).1)
  = calls (log three_listeners) ++ ((λ x, (x, "telemetry", PTrue)) <$> (before ++ [9; 9])) ∧
  (9 ∉ before → listeners (off "telemetry" 9 st2) !! "telemetry" = Some (before ++ [9])).
Proof.
  intros E.
  apply (registering_twice_delivers_twice (E := E) "telemetry" 9 PTrue three_listeners).
  vm_compute. repeat constructor.
Defined.

Section RequestsMore.
Context `{E : Env}.

(** With a negative [retryAttempts] the loop of [request] is not entered:
    nothing is fetched, the status is not touched and no listener is told;
    the result is the failure that follows the loop, which carries no
    timestamp. *)
Theorem request_without_attempts cfg net endpoint st :
  (retryAttempts cfg < 0)%Z →
  request cfg net endpoint st
  = (st, Resolved {| success := false; data := None;
                     error := Some "Max retries exceeded"; timestamp := None |}).
Proof.
  intros Hneg. unfold request.
  replace (Z.to_nat (retryAttempts cfg + 1)) with 0 by lia. done.
Qed.

Lemma try_block_settles net url startTime attempt st :
  settles (net attempt) → (try_block net url startTime attempt st).2 ≠ Hung.
Proof.
  unfold settles, try_block. destruct (outcome (net attempt)) as [e|code text rt body|];
    [done| |done].
  intros Hbody. cbv zeta. destruct (updateConnectionStatus _ _ _) as [st1 [|e]]; [|done].
  destruct (ok code); [|done]. by destruct body.
Qed.

Lemma attempts_resolve cfg net url startTime :
  quiet →
  ∀ remaining attempt st,
    (∀ i, (attempt ≤ i < attempt + Z.of_nat remaining)%Z → settles (net i)) →
    ∃ r, (attempts cfg net url startTime remaining attempt st).2 = Resolved r.
Proof.
  intros Hq. induction remaining as [|n IH]; intros attempt st Hset; [by eexists|].
  rewrite attempts_S.
  pose proof (try_block_settles net url startTime attempt st (Hset attempt ltac:(lia))) as Hh.
  destruct (try_block net url startTime attempt st) as [st1 [r|e|]]; [by eexists| |done].
  unfold catch_block. destruct (decide (attempt = retryAttempts cfg)).
  - match goal with |- context [updateConnectionStatus ?c ?l ?s] =>
      pose proof (updateConnectionStatus_quiet c l s Hq) as Hn;
      destruct (updateConnectionStatus c l s) as [st2 r] end.
    simpl in Hn. subst r. by eexists.
  - apply IH. intros i Hi. apply Hset. lia.
Qed.

(** When no listener throws and every exchange with the transport comes to
    an end, [request] resolves: it neither rejects nor stays pending,
    whatever the endpoint answers and whatever [retryAttempts] is. *)
Theorem request_resolves cfg net endpoint st :
  quiet →
  (∀ i, (0 ≤ i ≤ retryAttempts cfg)%Z → settles (net i)) →
  ∃ r, (request cfg net endpoint st).2 = Resolved r.
Proof.
  intros Hq Hset. unfold request. apply attempts_resolve; [done|].
  intros i Hi. apply Hset. lia.
Qed.

Lemma attempts_retry cfg net url startTime N k code text rt v :
  quiet → retryAttempts cfg = N → (k ≤ N)%Z →
  outcome (net k) = FetchResponds code text rt (BodyJson v) → ok code = true →
  ∀ j remaining attempt st,
    (attempt + Z.of_nat j = k)%Z → (j ≤ remaining)%nat →
    (∀ i, (attempt ≤ i < k)%Z → is_Some (failure (net i))) →
    let res := attempts cfg net url startTime (S remaining) attempt st in
    let W := foldr (λ i acc, (spent (net i) + timer_wait (1000 * 2 ^ i) + acc)%Z) 0%Z
                   (seqZ attempt (Z.of_nat j)) in
    let L := (now st + W + took (net k) - startTime)%Z in
    res.2 = Resolved {| success := true; data := Some v; error := None;
                        timestamp := Some (toISOString (now res.1)) |} ∧
    transport (log res.1) =
      transport (log st)
      ++ (seqZ attempt (Z.of_nat j) ≫= λ i, [IoFetch url; IoSleep (1000 * 2 ^ i)%Z])
      ++ [IoFetch url] ∧
    connected (status res.1) = true ∧ errorCount (status res.1) = 0%Z ∧
    now res.1 = (now st + W + took (net k) + rt)%Z ∧
    (L ≠ 0%Z → latency (status res.1) = L).
Proof.
  intros Hq HN HkN Hout Hok. induction j as [|j IH]; intros remaining attempt st Hsum Hrem Hfail.
  - assert (attempt = k) as -> by lia. cbv zeta.
    rewrite attempts_S. unfold try_block. rewrite Hout. cbv zeta.
    match goal with |- context [updateConnectionStatus ?c ?l ?s] =>
      pose proof (updateConnectionStatus_quiet c l s Hq) as Hn;
      pose proof (updateConnectionStatus_spec c l s) as (Hst & _ & Hnow & _ & _ & _ & Hlog);
      destruct (updateConnectionStatus c l s) as [st1 r] end.
    simpl in Hn, Hst, Hnow, Hlog. subst r. rewrite Hok. simpl.
    change (status (advance rt st1)) with (status st1). rewrite Hst; simpl.
    rewrite Hlog, transport_app, Hnow. simpl.
    repeat split; try done; try lia.
    intros HL. rewrite decide_False; [lia|]. lia.
  - cbv zeta.
    destruct (try_block_fails net url startTime attempt st (Hfail attempt ltac:(lia)))
      as (st1 & e & Htry & Hlog & _).
    pose proof (try_block_fails_now net url startTime attempt st Hq (Hfail attempt ltac:(lia)))
      as Hnow1.
    rewrite Htry in Hnow1; simpl in Hnow1.
    rewrite attempts_S, Htry. unfold catch_block. rewrite decide_False by lia.
    destruct remaining as [|remaining]; [lia|].
    destruct (IH remaining (attempt + 1)%Z (sleep (2 ^ attempt * 1000) (increment_errorCount st1)))
      as (Hres & Htr & Hconn & Hec & Hnow & Hlat); [lia|lia|intros; apply Hfail; lia|].
    rewrite (seqZ_cons attempt (Z.of_nat (S j))) by lia.
    replace (Z.pred (Z.of_nat (S j))) with (Z.of_nat j) by lia.
    replace (Z.succ attempt) with (attempt + 1)%Z by lia.
    cbn [foldr].
    replace (timer_wait (1000 * 2 ^ attempt)) with (timer_wait (2 ^ attempt * 1000))
      by (f_equal; lia).
    change (now (sleep ?ms ?s)) with (now s + timer_wait ms)%Z in Hnow, Hlat.
    change (now (increment_errorCount st1)) with (now st1) in Hnow, Hlat.
    rewrite Hnow1 in Hnow, Hlat.
    split; [done|]. split.
    { rewrite Htr. simpl. rewrite transport_app, Hlog. simpl.
      rewrite (Z.mul_comm 1000). by rewrite <- !app_assoc. }
    split; [done|]. split; [done|]. split.
    { rewrite Hnow. lia. }
    intros HL. rewrite Hlat; [lia|]. lia.
Qed.

(** An endpoint that fails [k] times and then answers with a status in
    200-299 and a body that decodes, when no listener throws and [k] is at
    most 22, so that every delay is within the range of the host's timers and
    is waited for as asked: the request succeeds with that body after
    [k + 1] calls of [fetch] and the [k] delays [1000 * 2 ^ i], and the
    status says connected with [errorCount] 0. The clock has moved by the
    attempts and the delays, and the [latency] recorded is the time since the
    request began (the failed attempts and the waits included), not the time
    of the attempt that succeeded. *)
Theorem retry_until_success cfg net endpoint st N k code text rt v :
  quiet → retryAttempts cfg = N → (0 ≤ k ≤ N)%Z → (k ≤ 22)%Z →
  (∀ i, (0 ≤ i < k)%Z → is_Some (failure (net i))) →
  outcome (net k) = FetchResponds code text rt (BodyJson v) → ok code = true →
  let st' := (request cfg net endpoint st).1 in
  let url := baseUrl cfg +:+ endpoint in
  (request cfg net endpoint st).2
  = Resolved {| success := true; data := Some v; error := None;
                timestamp := Some (toISOString (now st')) |} ∧
  transport (log st') =
    transport (log st)
    ++ (seqZ 0 k ≫= λ i, [IoFetch url; IoSleep (1000 * 2 ^ i)%Z]) ++ [IoFetch url] ∧
  connected (status st') = true ∧ errorCount (status st') = 0%Z ∧
  now st' = (now st + waited net k + took (net k) + rt)%Z ∧
  ((waited net k + took (net k))%Z ≠ 0%Z →
   latency (status st') = (waited net k + took (net k))%Z).
Proof.
  intros Hq HN Hk Hk22 Hfail Hout Hok st' url. unfold st', request. fold url.
  replace (Z.to_nat (retryAttempts cfg + 1)) with (S (Z.to_nat N)) by lia.
  destruct (attempts_retry cfg net url (now st) N k code text rt v Hq HN ltac:(lia) Hout Hok
              (Z.to_nat k) (Z.to_nat N) 0%Z st) as (Hres & Htr & Hconn & Hec & Hnow & Hlat);
    [lia|lia|intros; apply Hfail; lia|].
  rewrite Z2Nat.id in * by lia.
  rewrite (waited_as_asked net k 0 Hk22) in Hnow, Hlat.
  repeat (split; [done|]). split; [lia|]. intros HL. rewrite Hlat; lia.
Qed.

Lemma attempts_disconnected cfg net url startTime N :
  retryAttempts cfg = N →
  ∀ n attempt st,
    (attempt + Z.of_nat n = N)%Z →
    (∀ i, (attempt ≤ i ≤ N)%Z → is_Some (failure (net i))) →
    let st' := (attempts cfg net url startTime (S n) attempt st).1 in
    connected (status st') = false ∧ lastUpdated (status st') = toISOString (now st').
Proof.
  intros HN. induction n as [|n IH]; intros attempt st Hsum Hfail.
  - assert (attempt = N) as -> by lia. cbv zeta.
    destruct (try_block_fails net url startTime N st (Hfail N ltac:(lia)))
      as (st1 & e & Htry & _).
    rewrite attempts_S, Htry. unfold catch_block. rewrite decide_True by done.
    match goal with |- context [updateConnectionStatus ?c ?l ?s] =>
      pose proof (updateConnectionStatus_spec c l s) as (Hst & _ & Hnow & _);
      destruct (updateConnectionStatus c l s) as [st2 r] end.
    simpl in Hst, Hnow.
    assert (connected (status st2) = false ∧ lastUpdated (status st2) = toISOString (now st2))
      by (by rewrite Hst, Hnow).
    by destruct r.
  - cbv zeta.
    destruct (try_block_fails net url startTime attempt st (Hfail attempt ltac:(lia)))
      as (st1 & e & Htry & _).
    rewrite attempts_S, Htry. unfold catch_block. rewrite decide_False by lia.
    apply IH; [lia|]. intros; apply Hfail; lia.
Qed.

(** When every attempt fails, the request leaves the status at
    [connected = false], stamped with the time of the last attempt, even
    when error responses had set it to connected on the way, and also when a
    listener of the status events throws. *)
Theorem exhausted_request_marks_disconnected cfg net endpoint st N :
  retryAttempts cfg = N → (0 ≤ N)%Z →
  (∀ i, (0 ≤ i ≤ N)%Z → is_Some (failure (net i))) →
  let st' := (request cfg net endpoint st).1 in
  connected (status st') = false ∧ lastUpdated (status st') = toISOString (now st').
Proof.
  intros HN Hpos Hfail. unfold request.
  replace (Z.to_nat (retryAttempts cfg + 1)) with (S (Z.to_nat N)) by lia.
  apply (attempts_disconnected cfg net _ _ N HN); [lia|done].
Qed.

Lemma attempts_rejected cfg net url startTime N c others e :
  retryAttempts cfg = N →
  (∀ l, first_throw (listener_body c (PStatus l)) = Some e) →
  ∀ n attempt st,
    (attempt + Z.of_nat n = N)%Z →
    listeners st !! "connection_status" = Some (c :: others) →
    (∀ i, (attempt ≤ i ≤ N)%Z → ∃ e', outcome (net i) = FetchRejects e') →
    (attempts cfg net url startTime (S n) attempt st).2 = Rejected e.
Proof.
  intros HN Hthrow. induction n as [|n IH]; intros attempt st Hsum Hl Hrej.
  - assert (attempt = N) as -> by lia.
    destruct (Hrej N ltac:(lia)) as [e' He'].
    rewrite attempts_S. unfold try_block. rewrite He'.
    unfold catch_block. rewrite decide_True by done.
    unfold updateConnectionStatus, alloc, emit. simpl. rewrite Hl. simpl. rewrite Hl. simpl.
    unfold call.
    match goal with |- context [run_body ?b ?s] =>
      pose proof (run_body_throw b s) as Hr; destruct (run_body b s) as [st1 r] end.
    simpl in Hr. rewrite Hthrow in Hr. simpl in Hr. by subst r.
  - destruct (Hrej attempt ltac:(lia)) as [e' He'].
    rewrite attempts_S. unfold try_block. rewrite He'.
    unfold catch_block. rewrite decide_False by lia.
    apply IH; [lia|done|]. intros; apply Hrej; lia.
Qed.

(** A listener of the status events that throws makes [request] itself
    throw: when the endpoint cannot be reached on any attempt, the exception
    of the first listener of [connection_status] leaves the [catch] block,
    and the promise of [request] rejects with it instead of resolving to a
    failure. The telemetry hook catches it and shows its message. *)
Theorem throwing_status_listener_rejects_request cfg net endpoint st N c others e :
  retryAttempts cfg = N → (0 ≤ N)%Z →
  listeners st !! "connection_status" = Some (c :: others) →
  (∀ l, first_throw (listener_body c (PStatus l)) = Some e) →
  (∀ i, (0 ≤ i ≤ N)%Z → ∃ e', outcome (net i) = FetchRejects e') →
  (request cfg net endpoint st).2 = Rejected e ∧
  ∀ plantId h,
    plantId ≠ "" →
    (fetchData cfg net (Some plantId) true st h).2
    = {| h_data := h_data h; h_loading := false;
         h_error := Some (error_message e); h_lastUpdated := h_lastUpdated h |}.
Proof.
  intros HN Hpos Hl Hthrow Hrej.
  assert (∀ endpoint', (request cfg net endpoint' st).2 = Rejected e) as Hreq.
  { intros endpoint'. unfold request.
    replace (Z.to_nat (retryAttempts cfg + 1)) with (S (Z.to_nat N)) by lia.
    apply (attempts_rejected cfg net _ _ N c others e HN Hthrow); [lia|done|done]. }
  split; [done|]. intros plantId h Hid. unfold fetchData, getPlantTelemetry. simpl.
  rewrite (bool_decide_eq_true_2 _ Hid). simpl.
  specialize (Hreq ("/api/v1/plants/" +:+ plantId +:+ "/telemetry")).
  destruct (request _ _ _ _) as [st' r]. simpl in Hreq. by subst r.
Qed.

(** [updateConnectionStatus] hands the listeners the client's own status
    record, not a copy: every listener of [connection_status] is called once
    with the record that the client holds afterwards, so that the
    [errorCount++] of a later failed attempt shows in the record the
    listeners were given, without their being told. *)
Theorem status_listeners_get_live_record connected' latency' st l :
  listeners st !! "connection_status" = Some l →
  Forall (λ c, tame "connection_status"
                 (listener_body c (PStatus (length (heap st)))) = true) l →
  let st' := (updateConnectionStatus connected' latency' st).1 in
  connectionStatus st' = length (heap st) ∧
  calls (log st')
  = calls (log st) ++ ((λ c, (c, "connection_status", PStatus (connectionStatus st'))) <$> l) ∧
  heap st' !! connectionStatus st' = Some (status st') ∧
  errorCount <$> heap (increment_errorCount st') !! connectionStatus st'
  = Some (errorCount (status st') + 1)%Z.
Proof.
  intros Hl Htame st'. unfold st', updateConnectionStatus, alloc.
  match goal with |- context [emit ?ev ?a ?s0] =>
    destruct (emit_tame ev a s0 l) as (st1 & added & -> & _ & Hrest & Hlog); [done|done|] end.
  simpl. unfold rest_of in Hrest. simpl in Hrest.
  injection Hrest as Hc _ Hh _ _ _.
  assert (heap st1 !! connectionStatus st1 = Some (status st1)) as Hlook.
  { unfold status. rewrite Hc, Hh. by rewrite list_lookup_middle. }
  split; [done|]. split; [|split; [done|]].
  - rewrite Hlog, calls_app, calls_IoCall. simpl. by rewrite Hc.
  - unfold increment_errorCount; simpl. by rewrite list_lookup_alter_eq, Hlook.
Qed.

End RequestsMore.

(** An instance: no retry is configured and the count is negative. *)
Lemma request_without_attempts_witness :
  let E := silent in
  let cfg := {| baseUrl := ""; wsUrl := None; timeout := 0; retryAttempts := -1 |} in
  request cfg failing "/api/v1/plants" (new_ApiClient 0)
  = (new_ApiClient 0, Resolved {| success := false; data := None;
                                  error := Some "Max retries exceeded";
                                  timestamp := None |}).
Proof.
  intros E cfg. apply (request_without_attempts (E := E) cfg failing). by vm_compute.
Defined.

(** An instance: an endpoint that always answers 500. *)
Lemma request_resolves_witness :
  let E := silent in
  ∃ r, (request defaultConfig failing "/api/v1/plants" (new_ApiClient 0)).2 = Resolved r.
Proof.
  intros E. apply (request_resolves (E := E) defaultConfig failing).
  - intros c arg. reflexivity.
  - intros i _. vm_compute. discriminate.
Defined.

(** An instance: two 500 responses, then telemetry. *)
Lemma retry_until_success_witness :
  let E := silent in
  let v := JObject [(text "id", JString (text "plant-1"))] in
  let st' := (request defaultConfig flaky "/x" (new_ApiClient 0)).1 in
  let url := baseUrl defaultConfig +:+ "/x" in
  (request defaultConfig flaky "/x" (new_ApiClient 0)).2
  = Resolved {| success := true; data := Some v; error := None;
                timestamp := Some (toISOString (now st')) |} ∧
  transport (log st') =
    transport (log (new_ApiClient 0))
    ++ (seqZ 0 2 ≫= λ i, [IoFetch url; IoSleep (1000 * 2 ^ i)%Z]) ++ [IoFetch url] ∧
  connected (status st') = true ∧ errorCount (status st') = 0%Z ∧
  now st' = (now (new_ApiClient 0) + waited flaky 2 + took (flaky 2%Z) + 3)%Z ∧
  ((waited flaky 2 + took (flaky 2%Z))%Z ≠ 0%Z →
   latency (status st') = (waited flaky 2 + took (flaky 2%Z))%Z).
Proof.
  intros E v.
  apply (retry_until_success (E := E) defaultConfig flaky "/x" (new_ApiClient 0) 3 2
           200 "OK" 3 v).
  - intros c arg. reflexivity.
  - reflexivity.
  - lia.
  - lia.
  - intros i Hi. assert (i = 0 ∨ i = 1)%Z as [-> | ->] by lia; vm_compute; eauto.
  - reflexivity.
  - reflexivity.
Defined.

(** The same request in figures: 20 ms and 1 s, 20 ms and 2 s, then 40 ms
    until the response. *)
Lemma retry_example :
  let E := silent in
  let st' := (request defaultConfig flaky "/x" (new_ApiClient 0)).1 in
  latency (status st') = 3080%Z ∧ delays (log st') = [1000; 2000]%Z ∧ fetches (log st') = 3.
Proof. by vm_compute. Qed.

(** An instance: an endpoint that always answers 500. *)
Lemma exhausted_request_marks_disconnected_witness :
  let E := silent in
  let st' := (request defaultConfig failing "/x" (new_ApiClient 0)).1 in
  connected (status st') = false ∧ lastUpdated (status st') = toISOString (now st').
Proof.
  intros E.
  apply (exhausted_request_marks_disconnected (E := E) defaultConfig failing "/x"
           (new_ApiClient 0) 3).
  - reflexivity.
  - lia.
  - intros i _. vm_compute. eauto.
Defined.

(** An instance: the listener of the status events throws, and the endpoint
    cannot be reached. *)
Lemma throwing_status_listener_rejects_request_witness :
  let E := example_env faulty in
  (request defaultConfig unreachable "/x" watched).2
  = Rejected (ThrownError "render failed") ∧
  ∀ plantId h,
    plantId ≠ "" →
    (fetchData defaultConfig unreachable (Some plantId) true watched h).2
    = {| h_data := h_data h; h_loading := false;
         h_error := Some (error_message (ThrownError "render failed"));
         h_lastUpdated := h_lastUpdated h |}.
Proof.
  intros E.
  apply (throwing_status_listener_rejects_request (E := E) defaultConfig unreachable "/x"
           watched 3 0 []).
  - reflexivity.
  - lia.
  - by vm_compute.
  - intros l. reflexivity.
  - intros i _. eexists. reflexivity.
Defined.

(** An instance: one listener that does nothing. *)
Lemma status_listeners_get_live_record_witness :
  let E := silent in
  let st' := (updateConnectionStatus false None watched).1 in
  connectionStatus st' = length (heap watched) ∧
  calls (log st')
  = calls (log watched)
    ++ ((λ c, (c, "connection_status", PStatus (connectionStatus st'))) <$> [0]) ∧
  heap st' !! connectionStatus st' = Some (status st') ∧
  errorCount <$> heap (increment_errorCount st') !! connectionStatus st'
  = Some (errorCount (status st') + 1)%Z.
Proof.
  intros E.
  apply (status_listeners_get_live_record (E := E) false None watched [0]).
  - by vm_compute.
  - vm_compute. repeat constructor.
Defined.

Section StreamMore.
Context `{E : Env}.

(** A second [disconnectWebSocket] does nothing: after the first there is
    no current socket to close. *)
Theorem disconnect_is_idempotent st :
  disconnectWebSocket (disconnectWebSocket st) = disconnectWebSocket st.
Proof.
  unfold disconnectWebSocket at 1.
  replace (ws (disconnectWebSocket st)) with (@None nat); [done|].
  unfold disconnectWebSocket. by destruct (ws st) eqn:Hcur.
Qed.

(** The events of the stream never touch the connection status: whatever
    happens to the sockets, none of the client's handlers writes it, and the
    status record is the one the requests left. *)
Theorem stream_never_touches_status cfg evs st :
  status (run cfg evs st) = status st ∧
  heap (run cfg evs st) = heap st ∧
  connectionStatus (run cfg evs st) = connectionStatus st.
Proof.
  revert st. unfold run. induction evs as [|ev evs IH]; intros st; simpl; [done|].
  destruct (IH (step cfg st ev)) as (Hs & Hh & Hc).
  destruct (step_heap cfg st ev) as [Hh1 Hc1].
  rewrite Hs, Hh, Hc. unfold status. by rewrite Hh1, Hc1.
Qed.




(** A frame that is JSON but no envelope for a registered event is dropped
    without a trace: neither logged nor delivered. The frame [null] is the
    exception: reading its [type] throws, which is logged as a parse
    error. *)
Theorem frames_for_nobody_are_dropped st frame message :
  JSON_parse frame = Some message →
  (message = JNull →
   ws_onmessage frame st = effect (IoConsole "WebSocket message parse error:") st) ∧
  (message ≠ JNull → names_no_event st message → ws_onmessage frame st = st).
Proof.
  intros Hparse. unfold ws_onmessage. rewrite Hparse. split.
  - by intros ->.
  - intros Hnull Hnone. unfold names_no_event in Hnone. unfold emit_message.
    destruct (property "type" message) as [e|type] eqn:Htype.
    { by destruct message. }
    destruct (property "data" message) as [e|data] eqn:Hdata.
    { by destruct message. }
    destruct type as [[| | |u| |]|]; try done.
    destruct (string_of_units u) as [event|]; [|done]. simpl in Hnone.
    unfold emit. destruct (listeners st !! event) as [l|]; [|done].
    simpl in Hnone. by subst l.
Qed.

(** An exception thrown by a subscriber while an envelope is delivered is
    caught by the frame handler and logged as a parse error: the subscribers
    registered after it do not get the envelope, nothing else happens, and
    the socket stays open. *)
Theorem subscriber_exception_is_logged_as_parse_error
    cfg st s frame message event data pre c post e :
  sockets st !! s = Some OPEN →
  JSON_parse frame = Some message →
  property "type" message = inr (Some (JString (text event))) →
  property "data" message = inr data →
  listeners st !! event = Some (pre ++ c :: post) →
  Forall (λ c', tame event (listener_body c' (PData data)) = true) pre →
  first_throw (listener_body c (PData data)) = Some e →
  let st1 := step cfg st (SocketMessage s frame) in
  log st1 = log st ++ ((λ x, IoCall x event (PData data)) <$> (pre ++ [c]))
                  ++ [IoConsole "WebSocket message parse error:"] ∧
  sockets st1 = sockets st ∧ timers st1 = timers st ∧ ws st1 = ws st.
Proof.
  intros Hopen Hparse Htype Hdata Hl Htame Hthrow st1.
  unfold st1, step. rewrite Hopen. unfold ws_onmessage, emit_message.
  rewrite Hparse, Htype, Hdata, string_of_units_text.
  destruct (emit_rest event (PData data) st) as [Hrest _].
  unfold emit in *. rewrite Hl in *.
  destruct (forEach_until_throw event (PData data) pre c post e Htame Hthrow
              (length (pre ++ c :: post)) 0 st []) as (st' & Hfor & Hlog).
  { rewrite length_app; simpl; lia. }
  { by rewrite app_nil_r. }
  rewrite Hfor in *. simpl in *.
  unfold rest_of in Hrest. injection Hrest as _ Hw _ Hso Hti _.
  rewrite Hlog, drop_0, <- app_assoc. done.
Qed.

End StreamMore.



(** An instance: a heartbeat frame that no hook has registered for. *)
Lemma frames_for_nobody_are_dropped_witness :
  let E := silent in
  let frame := dq "{'type':'heartbeat','data':1}" in
  let message := JObject [(text "type", JString (text "heartbeat"));
                          (text "data", JNumber 1 0)] in
  (message = JNull →
   ws_onmessage frame streaming
   = effect (IoConsole "WebSocket message parse error:") streaming) ∧
  (message ≠ JNull → names_no_event streaming message →
   ws_onmessage frame streaming = streaming).
Proof.
  intros E frame message.
  apply (frames_for_nobody_are_dropped (E := E) streaming frame message).
  by vm_compute.
Defined.

(** An instance: a telemetry envelope without [data] reaches the handler of
    the telemetry hook, which reads [update.id] of [undefined]. *)
Lemma subscriber_exception_is_logged_as_parse_error_witness :
  let E := hooks_env in
  let st := on "telemetry" 6 streaming in
  let frame := dq "{'type':'telemetry'}" in
  let st1 := step defaultConfig st (SocketMessage 0 frame) in
  log st1 = log st ++ ((λ x, IoCall x "telemetry" (PData None)) <$> ([] ++ [5]))
                  ++ [IoConsole "WebSocket message parse error:"] ∧
  sockets st1 = sockets st ∧ timers st1 = timers st ∧ ws st1 = ws st.
Proof.
  intros E st frame.
  apply (subscriber_exception_is_logged_as_parse_error (E := E) defaultConfig st 0 frame
           (JObject [(text "type", JString (text "telemetry"))]) "telemetry" None [] 5 [6]
           (ThrownError "Cannot read properties of undefined (reading 'id')")).
  - by vm_compute.
  - by vm_compute.
  - by vm_compute.
  - by vm_compute.
  - by vm_compute.
  - constructor.
  - by vm_compute.
Defined.

Section HooksMore.
Context `{E : Env}.

Lemma try_block_hangs net url startTime attempt st :
  quiet → hangs (net attempt) → (try_block net url startTime attempt st).2 = Hung.
Proof.
  intros Hq Hh. unfold hangs in Hh. unfold try_block.
  destruct (outcome (net attempt)) as [e'|code text rt body|]; [done| |done].
  cbv zeta.
  match goal with |- context [updateConnectionStatus ?c ?l ?s] =>
    pose proof (updateConnectionStatus_quiet c l s Hq) as Hn;
    destruct (updateConnectionStatus c l s) as [st1 r] end.
  simpl in Hn. subst r. by destruct body; try done; rewrite Hh.
Qed.

Lemma attempts_hang cfg net url startTime N k :
  quiet → retryAttempts cfg = N → (k ≤ N)%Z → hangs (net k) →
  ∀ j remaining attempt st,
    (attempt + Z.of_nat j = k)%Z → (j ≤ remaining)%nat →
    (∀ i, (attempt ≤ i < k)%Z → is_Some (failure (net i))) →
    (attempts cfg net url startTime (S remaining) attempt st).2 = Pending.
Proof.
  intros Hq HN HkN Hh. induction j as [|j IH]; intros remaining attempt st Hsum Hrem Hfail.
  - assert (attempt = k) as -> by lia. rewrite attempts_S.
    pose proof (try_block_hangs net url startTime k st Hq Hh) as Hhung.
    destruct (try_block net url startTime k st) as [st1 r]. simpl in Hhung. by subst r.
  - destruct (try_block_fails net url startTime attempt st (Hfail attempt ltac:(lia)))
      as (st1 & e & Htry & _).
    rewrite attempts_S, Htry. unfold catch_block. rewrite decide_False by lia.
    destruct remaining as [|remaining]; [lia|].
    apply IH; [lia|lia|intros; apply Hfail; lia].
Qed.

Lemma request_hangs cfg net endpoint st N k :
  quiet → retryAttempts cfg = N → (0 ≤ k ≤ N)%Z →
  (∀ i, (0 ≤ i < k)%Z → is_Some (failure (net i))) → hangs (net k) →
  (request cfg net endpoint st).2 = Pending.
Proof.
  intros Hq HN Hk Hfail Hh. unfold request. rewrite HN.
  replace (Z.to_nat (N + 1)) with (S (Z.to_nat N)) by lia.
  apply (attempts_hang cfg net _ _ N k Hq HN ltac:(lia) Hh (Z.to_nat k)); [lia|lia|].
  intros; apply Hfail; lia.
Qed.

Lemma request_succeeds cfg net endpoint st N k code text rt v :
  quiet → retryAttempts cfg = N → (0 ≤ k ≤ N)%Z →
  (∀ i, (0 ≤ i < k)%Z → is_Some (failure (net i))) →
  outcome (net k) = FetchResponds code text rt (BodyJson v) → ok code = true →
  let res := request cfg net endpoint st in
  res.2 = Resolved {| success := true; data := Some v; error := None;
                      timestamp := Some (toISOString (now res.1)) |} ∧
  transport (log res.1) =
    transport (log st)
    ++ (seqZ 0 k ≫= λ i, [IoFetch (baseUrl cfg +:+ endpoint);
                          IoSleep (1000 * 2 ^ i)%Z])
    ++ [IoFetch (baseUrl cfg +:+ endpoint)].
Proof.
  intros Hq HN Hk Hfail Hout Hok res. unfold res, request. rewrite HN.
  replace (Z.to_nat (N + 1)) with (S (Z.to_nat N)) by lia.
  destruct (attempts_retry cfg net (baseUrl cfg +:+ endpoint) (now st) N k code text rt v
              Hq HN ltac:(lia) Hout Hok (Z.to_nat k) (Z.to_nat N) 0%Z st)
    as (Hres & Htr & _); [lia|lia|intros; apply Hfail; lia|].
  rewrite Z2Nat.id in Htr by lia. done.
Qed.

Lemma request_fails cfg net endpoint st N :
  quiet → retryAttempts cfg = N → (0 ≤ N)%Z →
  (∀ i, (0 ≤ i ≤ N)%Z → is_Some (failure (net i))) →
  let res := request cfg net endpoint st in
  ∃ e, failure (net N) = Some e ∧
       res.2 = Resolved {| success := false; data := None;
                           error := Some (error_message e);
                           timestamp := Some (toISOString (now res.1)) |} ∧
       fetches (log res.1) = (fetches (log st) + Z.to_nat (N + 1))%nat.
Proof.
  intros Hq HN HN0 Hfail res. unfold res, request. rewrite HN.
  replace (Z.to_nat (N + 1)) with (S (Z.to_nat N)) by lia.
  destruct (attempts_all_fail cfg net (baseUrl cfg +:+ endpoint) (now st) N HN
              (Z.to_nat N) 0%Z st) as (st' & r & Hrun & Htr & Hres); [lia|done|].
  destruct (Hres Hq) as (e & He & ->). rewrite Hrun. simpl.
  exists e. split; [done|]. split; [done|].
  rewrite <- (fetches_transport (log st')), Htr, !fetches_app, fetches_transport,
    fetches_retries, length_seqZ.
  unfold fetches; simpl. lia.
Qed.

(** A fetch of the telemetry hook whose request succeeds, at once or after
    retries, looks at the body: a truthy body becomes the data, with the
    error cleared and the time of the response as [lastUpdated]; a falsy
    body ([null], [0], [false], an empty string) is refused as
    [Failed to fetch plant data] although the request succeeded, and the
    earlier data stays. *)
Theorem fetched_body_must_be_truthy cfg net plantId st h N k code text rt v :
  quiet → retryAttempts cfg = N → (0 ≤ k ≤ N)%Z → plantId ≠ "" →
  (∀ i, (0 ≤ i < k)%Z → is_Some (failure (net i))) →
  outcome (net k) = FetchResponds code text rt (BodyJson v) → ok code = true →
  let res := fetchData cfg net (Some plantId) true st h in
  res.2 = if truthy v
          then {| h_data := Some v; h_loading := false; h_error := None;
                  h_lastUpdated := Some (toISOString (now res.1)) |}
          else {| h_data := h_data h; h_loading := false;
                  h_error := Some "Failed to fetch plant data";
                  h_lastUpdated := h_lastUpdated h |}.
Proof.
  intros Hq HN Hk Hid Hfail Hout Hok res. unfold res, fetchData, getPlantTelemetry.
  simpl. rewrite (bool_decide_eq_true_2 _ Hid). simpl.
  destruct (request_succeeds cfg net ("/api/v1/plants/" +:+ plantId +:+ "/telemetry") st
              N k code text rt v Hq HN Hk Hfail Hout Hok) as [Hres _].
  destruct (request cfg net _ st) as [st' r]. simpl in *. subst r. simpl.
  destruct (truthy v); simpl; [|done].
  unfold or_else, nonempty. by destruct (bool_decide _).
Qed.

(** When no listener throws, a request that meets an attempt which never
    ends never settles, whatever [timeout] the configuration gives. The telemetry hook then stays loading
    with its error cleared; the health hook, which does not set [loading]
    before the request, stays as it was, loading if it had just mounted. *)
Theorem hung_request_leaves_hooks_waiting cfg net endpoint plantId st h s N k :
  quiet → retryAttempts cfg = N → (0 ≤ k ≤ N)%Z → plantId ≠ "" →
  (∀ i, (0 ≤ i < k)%Z → is_Some (failure (net i))) → hangs (net k) →
  (request cfg net endpoint st).2 = Pending ∧
  (fetchData cfg net (Some plantId) true st h).2
  = {| h_data := h_data h; h_loading := true; h_error := None;
       h_lastUpdated := h_lastUpdated h |} ∧
  (fetchHealth cfg net st s).2
  = {| s_data := s_data s; s_loading := s_loading s; s_error := None |}.
Proof.
  intros Hq HN Hk Hid Hfail Hh. split; [by eapply request_hangs|]. split.
  - unfold fetchData, getPlantTelemetry. simpl. rewrite (bool_decide_eq_true_2 _ Hid). simpl.
    pose proof (request_hangs cfg net ("/api/v1/plants/" +:+ plantId +:+ "/telemetry") st
                  N k Hq HN Hk Hfail Hh) as Hp.
    destruct (request cfg net _ st) as [st' r]. simpl in *. by subst r.
  - unfold fetchHealth, getSystemHealth.
    pose proof (request_hangs cfg net "/api/v1/system/health" st N k Hq HN Hk Hfail Hh) as Hp.
    destruct (request cfg net _ st) as [st' r]. simpl in *. by subst r.
Qed.

(** A refresh of the health hook whose attempts all fail keeps the data it
    had, stops loading and shows the message of the last failure, or
    [Failed to fetch system health] when that message is empty; it has
    called [fetch] once more than [retryAttempts]. *)
Theorem failed_health_refresh_keeps_data cfg net st h N :
  quiet → retryAttempts cfg = N → (0 ≤ N)%Z →
  (∀ i, (0 ≤ i ≤ N)%Z → is_Some (failure (net i))) →
  let res := fetchHealth cfg net st h in
  ∃ e, failure (net N) = Some e ∧
       res.2 = {| s_data := s_data h; s_loading := false;
                  s_error := Some (if bool_decide (error_message e ≠ "")
                                   then error_message e
                                   else "Failed to fetch system health") |} ∧
       fetches (log res.1) = (fetches (log st) + Z.to_nat (N + 1))%nat.
Proof.
  intros Hq HN HN0 Hfail res. unfold res, fetchHealth, getSystemHealth.
  destruct (request_fails cfg net "/api/v1/system/health" st N Hq HN HN0 Hfail)
    as (e & He & Hres & Hn).
  destruct (request cfg net _ st) as [st' r]. simpl in *. subst r. simpl.
  exists e. by repeat split.
Qed.

(** A refresh of the alerts hook asks for the alerts not yet acknowledged.
    When the request succeeds, at once or after retries, a truthy body
    replaces the list and clears the error, an empty list included; a falsy
    body is refused as [Failed to fetch alerts] and the list stays. *)
Theorem alerts_refresh_replaces_list cfg net st h N k code text rt v :
  quiet → retryAttempts cfg = N → (0 ≤ k ≤ N)%Z →
  (∀ i, (0 ≤ i < k)%Z → is_Some (failure (net i))) →
  outcome (net k) = FetchResponds code text rt (BodyJson v) → ok code = true →
  let res := fetchAlerts cfg net st h in
  let url := baseUrl cfg +:+ "/api/v1/alerts?acknowledged=false" in
  res.2 = (if truthy v
           then {| a_alerts := v; a_loading := false; a_error := None |}
           else {| a_alerts := a_alerts h; a_loading := false;
                   a_error := Some "Failed to fetch alerts" |}) ∧
  transport (log res.1) =
    transport (log st)
    ++ (seqZ 0 k ≫= λ i, [IoFetch url; IoSleep (1000 * 2 ^ i)%Z]) ++ [IoFetch url].
Proof.
  intros Hq HN Hk Hfail Hout Hok res url. unfold res, url, fetchAlerts, getAlerts. simpl.
  destruct (request_succeeds cfg net "/api/v1/alerts?acknowledged=false" st
              N k code text rt v Hq HN Hk Hfail Hout Hok) as [Hres Htr].
  destruct (request cfg net _ st) as [st' r]. simpl in *. subst r. simpl.
  split; [|done]. by destruct (truthy v).
Qed.

End HooksMore.

(** An instance: the endpoint that answers at the third attempt. *)
Lemma fetched_body_must_be_truthy_witness :
  let E := silent in
  let v := JObject [(text "id", JString (text "plant-1"))] in
  let res := fetchData defaultConfig flaky (Some "plant-1") true (new_ApiClient 0) loaded in
  res.2 = if truthy v
          then {| h_data := Some v; h_loading := false; h_error := None;
                  h_lastUpdated := Some (toISOString (now res.1)) |}
          else {| h_data := h_data loaded; h_loading := false;
                  h_error := Some "Failed to fetch plant data";
                  h_lastUpdated := h_lastUpdated loaded |}.
Proof.
  intros E v.
  apply (fetched_body_must_be_truthy (E := E) defaultConfig flaky "plant-1" (new_ApiClient 0)
           loaded 3 2 200 "OK" 3 v).
  - intros c arg. reflexivity.
  - reflexivity.
  - lia.
  - discriminate.
  - intros i Hi. assert (i = 0 ∨ i = 1)%Z as [-> | ->] by lia; vm_compute; eauto.
  - reflexivity.
  - reflexivity.
Defined.

(** An instance: the endpoint that never answers. *)
Lemma hung_request_leaves_hooks_waiting_witness :
  let E := silent in
  (request defaultConfig stalled "/api/v1/plants" (new_ApiClient 0)).2 = Pending ∧
  (fetchData defaultConfig stalled (Some "plant-1") true (new_ApiClient 0) loaded).2
  = {| h_data := h_data loaded; h_loading := true; h_error := None;
       h_lastUpdated := h_lastUpdated loaded |} ∧
  (fetchHealth defaultConfig stalled (new_ApiClient 0) mounted_health).2
  = {| s_data := s_data mounted_health; s_loading := s_loading mounted_health;
       s_error := None |}.
Proof.
  intros E.
  apply (hung_request_leaves_hooks_waiting (E := E) defaultConfig stalled "/api/v1/plants"
           "plant-1" (new_ApiClient 0) loaded mounted_health 3 0).
  - intros c arg. reflexivity.
  - reflexivity.
  - lia.
  - discriminate.
  - intros i Hi. lia.
  - exact I.
Defined.

(** An instance: the endpoint that answers 500 every time. *)
Lemma failed_health_refresh_keeps_data_witness :
  let E := silent in
  let res := fetchHealth defaultConfig failing (new_ApiClient 0) mounted_health in
  ∃ e, failure (failing 3%Z) = Some e ∧
       res.2 = {| s_data := s_data mounted_health; s_loading := false;
                  s_error := Some (if bool_decide (error_message e ≠ "")
                                   then error_message e
                                   else "Failed to fetch system health") |} ∧
       fetches (log res.1) = (fetches (log (new_ApiClient 0)) + Z.to_nat (3 + 1))%nat.
Proof.
  intros E.
  apply (failed_health_refresh_keeps_data (E := E) defaultConfig failing (new_ApiClient 0)
           mounted_health 3).
  - intros c arg. reflexivity.
  - reflexivity.
  - lia.
  - intros i Hi. vm_compute. eauto.
Defined.

(** An instance: the endpoint that has no alerts. *)
Lemma alerts_refresh_replaces_list_witness :
  let E := silent in
  let res := fetchAlerts defaultConfig no_alerts (new_ApiClient 0) mounted_alerts in
  let url := baseUrl defaultConfig +:+ "/api/v1/alerts?acknowledged=false" in
  res.2 = (if truthy (JArray [])
           then {| a_alerts := JArray []; a_loading := false; a_error := None |}
           else {| a_alerts := a_alerts mounted_alerts; a_loading := false;
                   a_error := Some "Failed to fetch alerts" |}) ∧
  transport (log res.1) =
    transport (log (new_ApiClient 0))
    ++ (seqZ 0 0 ≫= λ i, [IoFetch url; IoSleep (1000 * 2 ^ i)%Z]) ++ [IoFetch url].
Proof.
  intros E.
  apply (alerts_refresh_replaces_list (E := E) defaultConfig no_alerts (new_ApiClient 0)
           mounted_alerts 3 0 200 "OK" 3 (JArray [])).
  - intros c arg. reflexivity.
  - reflexivity.
  - lia.
  - intros i Hi. lia.
  - reflexivity.
  - reflexivity.
Defined.
